(** * Chunk streaming of WorldCanvas.tsx

    A shallow embedding of the chunk streaming code of
    [src/components/WorldCanvas.tsx] (the body of the [useEffect] callback:
    [keyOf], [loadChunkAt] with its inner [attemptLoad], [ensureChunksAround]
    and the cleanup function), and the properties of it that the
    specification states.

    The JavaScript event loop is modelled as a step function over an explicit
    state: the component's variables ([loaded], [inflight], [disposed],
    [chunkLoadQueue]), the children of [worldGroup], the pending [setTimeout]
    callbacks and the HTTP attempts that are suspended at an [await]. *)

From Stdlib Require Import ZArith Lia Bool List Ascii String.
From Stdlib Require Import Strings.Byte.
From Stdlib Require Import Reals Lra Sorted Permutation.
From stdpp Require Import gmap strings list.

Local Open Scope Z_scope.

(** ** Keys: [keyOf] and the parsing done by the prune scan *)

Module Key.

(** One decimal digit as a character. *)
Definition digit_char (d : Z) : ascii :=
  ascii_of_nat (48 + Z.to_nat d).

Definition is_digit (c : ascii) : bool :=
  let n := Z.of_nat (nat_of_ascii c) in (48 <=? n) && (n <=? 57).

Definition digit_val (c : ascii) : Z := Z.of_nat (nat_of_ascii c) - 48.

(** The decimal digits of a natural number, most significant first, put in
    front of [acc]. The fuel bounds the number of digits; [Z.log2 n + 1]
    is always enough ([parse_digits_digits]). *)
Fixpoint digits_fuel (fuel : nat) (n : Z) (acc : string) : string :=
  match fuel with
  | O => acc
  | S fuel' =>
      let acc' := String (digit_char (n mod 10)) acc in
      if n <? 10 then acc' else digits_fuel fuel' (n / 10) acc'
  end.

Definition digits (n : Z) : string :=
  digits_fuel (S (Z.to_nat (Z.log2 n))) n "".

(** Drop the zeros at the end of a digit string (the mantissa of the exponent
    form keeps no trailing zero). *)
Fixpoint strip_trailing_zeros (s : string) : string :=
  match s with
  | "" => ""
  | String c r =>
      match strip_trailing_zeros r with
      | "" => if Ascii.eqb c "0" then "" else String c ""
      | r' => String c r'
      end
  end.

(** [Number::toString] (radix 10) on an integer-valued number, which is what
    the template literal [`${cx},${cz}`] applies to [cx] and [cz]: plain
    decimal digits below 10^21 in magnitude, exponent form [d.ddde+N] from
    10^21 on. Below 2^53 every integer is a number and this is its exact
    output. From 2^53 on a number prints the shortest digits that identify
    it, followed by zeros, and [parseInt] rounds what it reads back to that
    number; the model prints the digits of the integer itself and reads them
    back exactly, which is the same string for every number with at most 15
    significant digits, 10^21 among them. *)
Definition number_to_string (n : Z) : string :=
  let sign := if n <? 0 then "-" else "" in
  let ds := digits (Z.abs n) in
  if Z.abs n <? 10 ^ 21 then sign +:+ ds
  else
    match strip_trailing_zeros ds with
    | "" => sign +:+ ds
    | String d frac =>
        sign +:+ String d (if String.eqb frac "" then "" else "." +:+ frac)
             +:+ "e+" +:+ digits (Z.of_nat (String.length ds) - 1)
    end.

(** [const keyOf = (cx, cz) => `${cx},${cz}`] *)
Definition keyOf (cx cz : Z) : string :=
  number_to_string cx +:+ "," +:+ number_to_string cz.

(** [String.prototype.split] with a one-character separator. *)
Fixpoint split (sep : ascii) (s : string) : list string :=
  match s with
  | "" => [""]
  | String c r =>
      if Ascii.eqb c sep then "" :: split sep r
      else match split sep r with
           | h :: t => String c h :: t
           | [] => [String c ""]
           end
  end.

(** White space that [parseInt] skips (the ASCII part of it). *)
Definition is_space (c : ascii) : bool :=
  let n := nat_of_ascii c in
  (n =? 32)%nat || ((9 <=? n)%nat && (n <=? 13)%nat).

Fixpoint skip_spaces (s : string) : string :=
  match s with
  | String c r => if is_space c then skip_spaces r else s
  | "" => ""
  end.

(** The value of the longest prefix of digits, continuing from [acc]. *)
Fixpoint parse_digits (acc : Z) (s : string) : Z :=
  match s with
  | String c r =>
      if is_digit c then parse_digits (acc * 10 + digit_val c) r else acc
  | "" => acc
  end.

Definition starts_with_digit (s : string) : bool :=
  match s with
  | String c _ => is_digit c
  | "" => false
  end.

(** [parseInt(s, 10)]: skip white space, read a sign, read the longest prefix
    of digits; [None] is NaN (no digit). *)
Definition parseInt (s : string) : option Z :=
  let s1 := skip_spaces s in
  let '(sign, s2) :=
    match s1 with
    | String "-" r => (-1, r)
    | String "+" r => (1, r)
    | _ => (1, s1)
    end in
  if starts_with_digit s2 then Some (sign * parse_digits 0 s2) else None.

(** [const [gx, gz] = key.split(',').map((n) => parseInt(n, 10))]: the first
    two parts, parsed; a missing part is [undefined], which behaves like NaN
    in the comparisons that follow, and is [None] as well. *)
Definition parse_key (key : string) : option Z * option Z :=
  match split "," key with
  | a :: b :: _ => (parseInt a, parseInt b)
  | [a] => (parseInt a, None)
  | [] => (None, None)
  end.



End Key.

(** ** Configuration and the external collaborators *)

Definition VIEW_RADIUS : Z := 6.
Definition maxRetries : Z := 3.
Definition baseRetryDelay : Z := 1000.

(** A voxel grid or a response body: a buffer of bytes. *)
Abbreviation Grid := (list byte).

Inductive Policy := Contiguous | AnyDepth.

(** What the component imports and this file does not contain: the
    configuration constants of [WorldConfiguraton], the block ids, the
    surface painter of [lib/three/surface_details], and the values that
    [Math.floor(Math.random() * 4)] takes, call after call. *)
Record Externals := {
  CHUNK : Z;
  BASE_BLOCK : byte;
  Block_Grass : byte;
  Block_Dirt : byte;
  PaintLayer : Grid -> Z -> byte -> byte -> Z -> Policy -> Grid;
  random4 : nat -> Z
}.

(** Modelled from the spec: [generateChunk] of [lib/three] is not among the
    sources; the fallback generator starts by filling a grid of [CHUNK^3]
    cells with the base block. *)
Definition generateChunk (size : Z) (base : byte) : Grid :=
  repeat base (Z.to_nat (size * size * size)).

(** ** The state of the component *)

(** A load priority is [Math.max(0, VIEW_RADIUS - Math.sqrt(dx*dx + dz*dz))].
    The model keeps the integer [dx*dx + dz*dz] under the square root;
    [priority_value] below is the number it stands for. *)
Record Priority := { dist2 : Z }.

(** [a.priority < b.priority], decided on the squared distances. *)
Definition priority_ltb (a b : Priority) : bool :=
  Z.min (dist2 b) (VIEW_RADIUS * VIEW_RADIUS)
  <? Z.min (dist2 a) (VIEW_RADIUS * VIEW_RADIUS).

Inductive Provenance := Remote | Local.

(** The [THREE.Group] of a chunk: the object identity, the grid that
    [buildInstancedChunk] was given, the colour of the box helper (cyan for a
    fetched chunk, red for a generated one) and [group.position]. *)
Record Group := {
  g_id : nat;
  g_grid : Grid;
  g_helper : Provenance;
  g_position : Z * Z * Z
}.

(** The callbacks handed to [setTimeout]. *)
Inductive Callback :=
| CbAbort (rid : nat)
    (* () => controller.abort() *)
| CbRetry (key : string) (cx cz : Z) (retryCount : Z)
    (* () => { if (!disposed && inflight.has(key)) attemptLoad(retryCount + 1) } *)
| CbLoad (x z : Z) (priority : Priority)
    (* () => { if (!disposed) loadChunkAt(chunk.x, chunk.z, chunk.priority) } *)
| CbPrune (key : string).
    (* () => { const group = loaded.get(key); if (group) { ... } } *)

Record Timer := { t_id : nat; t_due : Z; t_cb : Callback }.

(** An invocation of [attemptLoad] suspended at [await fetch(...)] or at
    [await res.arrayBuffer()], with the variables it closes over. *)
Inductive Phase := AwaitFetch | AwaitBody.

Record Request := {
  r_id : nat;
  r_key : string;
  r_cx : Z;
  r_cz : Z;
  r_retryCount : Z;
  r_phase : Phase;
  r_timeoutId : nat
}.

(** Calls into the collaborators, logged in the order they are made. *)
Inductive Effect :=
| Fetch (key : string) (cx cz : Z) (retryCount : Z)
| Generate (key : string)
| Build (key : string) (p : Provenance) (grid : Grid)
| DisposeObject (gid : nat).

Record State := {
  loaded : list (string * Group);        (* Map<string, THREE.Group>, in insertion order *)
  inflight : gset string;                (* Set<string> *)
  disposed : bool;
  chunkLoadQueue : gmap string (Priority * Z);
  worldGroup : list Group;               (* worldGroup.children *)
  timers : list Timer;                   (* pending setTimeout callbacks *)
  requests : list Request;               (* suspended attemptLoad invocations *)
  now : Z;                               (* milliseconds *)
  next_id : nat;                         (* fresh timer, request and object ids *)
  randoms : nat;                         (* calls of Math.random so far *)
  effects : list Effect
}.

Definition init : State :=
  {| loaded := []; inflight := ∅; disposed := false; chunkLoadQueue := ∅;
     worldGroup := []; timers := []; requests := []; now := 0; next_id := 0;
     randoms := 0; effects := [] |}.

Definition set_loaded (v : list (string * Group)) (s : State) : State :=
  {| loaded := v; inflight := inflight s; disposed := disposed s;
     chunkLoadQueue := chunkLoadQueue s; worldGroup := worldGroup s;
     timers := timers s; requests := requests s; now := now s;
     next_id := next_id s; randoms := randoms s; effects := effects s |}.

Definition set_inflight (v : gset string) (s : State) : State :=
  {| loaded := loaded s; inflight := v; disposed := disposed s;
     chunkLoadQueue := chunkLoadQueue s; worldGroup := worldGroup s;
     timers := timers s; requests := requests s; now := now s;
     next_id := next_id s; randoms := randoms s; effects := effects s |}.

Definition set_disposed (v : bool) (s : State) : State :=
  {| loaded := loaded s; inflight := inflight s; disposed := v;
     chunkLoadQueue := chunkLoadQueue s; worldGroup := worldGroup s;
     timers := timers s; requests := requests s; now := now s;
     next_id := next_id s; randoms := randoms s; effects := effects s |}.

Definition set_chunkLoadQueue (v : gmap string (Priority * Z)) (s : State) : State :=
  {| loaded := loaded s; inflight := inflight s; disposed := disposed s;
     chunkLoadQueue := v; worldGroup := worldGroup s;
     timers := timers s; requests := requests s; now := now s;
     next_id := next_id s; randoms := randoms s; effects := effects s |}.

Definition set_worldGroup (v : list Group) (s : State) : State :=
  {| loaded := loaded s; inflight := inflight s; disposed := disposed s;
     chunkLoadQueue := chunkLoadQueue s; worldGroup := v;
     timers := timers s; requests := requests s; now := now s;
     next_id := next_id s; randoms := randoms s; effects := effects s |}.

Definition set_timers (v : list Timer) (s : State) : State :=
  {| loaded := loaded s; inflight := inflight s; disposed := disposed s;
     chunkLoadQueue := chunkLoadQueue s; worldGroup := worldGroup s;
     timers := v; requests := requests s; now := now s;
     next_id := next_id s; randoms := randoms s; effects := effects s |}.

Definition set_requests (v : list Request) (s : State) : State :=
  {| loaded := loaded s; inflight := inflight s; disposed := disposed s;
     chunkLoadQueue := chunkLoadQueue s; worldGroup := worldGroup s;
     timers := timers s; requests := v; now := now s;
     next_id := next_id s; randoms := randoms s; effects := effects s |}.

Definition set_now (v : Z) (s : State) : State :=
  {| loaded := loaded s; inflight := inflight s; disposed := disposed s;
     chunkLoadQueue := chunkLoadQueue s; worldGroup := worldGroup s;
     timers := timers s; requests := requests s; now := v;
     next_id := next_id s; randoms := randoms s; effects := effects s |}.

Definition set_next_id (v : nat) (s : State) : State :=
  {| loaded := loaded s; inflight := inflight s; disposed := disposed s;
     chunkLoadQueue := chunkLoadQueue s; worldGroup := worldGroup s;
     timers := timers s; requests := requests s; now := now s;
     next_id := v; randoms := randoms s; effects := effects s |}.

Definition set_randoms (v : nat) (s : State) : State :=
  {| loaded := loaded s; inflight := inflight s; disposed := disposed s;
     chunkLoadQueue := chunkLoadQueue s; worldGroup := worldGroup s;
     timers := timers s; requests := requests s; now := now s;
     next_id := next_id s; randoms := v; effects := effects s |}.

Definition emit (e : Effect) (s : State) : State :=
  {| loaded := loaded s; inflight := inflight s; disposed := disposed s;
     chunkLoadQueue := chunkLoadQueue s; worldGroup := worldGroup s;
     timers := timers s; requests := requests s; now := now s;
     next_id := next_id s; randoms := randoms s; effects := effects s ++ [e] |}.

(** ** The [Map] operations used on [loaded] *)

Section JsMap.
Context {V : Type}.

Fixpoint map_get (k : string) (m : list (string * V)) : option V :=
  match m with
  | [] => None
  | (k', v) :: m' => if String.eqb k k' then Some v else map_get k m'
  end.

Definition map_has (k : string) (m : list (string * V)) : bool :=
  match map_get k m with Some _ => true | None => false end.

(** [Map.prototype.set]: an existing key keeps its place and gets the new
    value, a new key goes to the end. *)
Fixpoint map_set (k : string) (v : V) (m : list (string * V)) : list (string * V) :=
  match m with
  | [] => [(k, v)]
  | (k', v') :: m' =>
      if String.eqb k k' then (k', v) :: m' else (k', v') :: map_set k v m'
  end.

Fixpoint map_delete (k : string) (m : list (string * V)) : list (string * V) :=
  match m with
  | [] => []
  | (k', v') :: m' =>
      if String.eqb k k' then m' else (k', v') :: map_delete k m'
  end.
End JsMap.

(** ** The operations of the component *)

Record Candidate := { c_x : Z; c_z : Z; c_priority : Priority }.

(** [chunksToLoad.sort((a, b) => b.priority - a.priority)]: the sort is
    stable, an element goes in front of the first one that has no higher
    priority. *)
Fixpoint insert_by_priority (c : Candidate) (l : list Candidate) : list Candidate :=
  match l with
  | [] => [c]
  | y :: l' =>
      if priority_ltb (c_priority c) (c_priority y)
      then y :: insert_by_priority c l'
      else c :: y :: l'
  end.

Definition sort_by_priority (l : list Candidate) : list Candidate :=
  foldr insert_by_priority [] l.

(** The values of [dx] and of [dz]: [-VIEW_RADIUS], ..., [VIEW_RADIUS]. *)
Definition offsets : list Z := seqZ (- VIEW_RADIUS) (2 * VIEW_RADIUS + 1).

(** [Math.abs(g - c) > VIEW_RADIUS + 1]; false when [g] is NaN. *)
Definition beyond (g : option Z) (c : Z) : bool :=
  match g with
  | Some g => Z.abs (g - c) >? VIEW_RADIUS + 1
  | None => false
  end.

Definition out_of_range (cx cz : Z) (key : string) : bool :=
  let '(gx, gz) := Key.parse_key key in beyond gx cx || beyond gz cz.

Definition setTimeout (cb : Callback) (delay : Z) (s : State) : State :=
  set_next_id (S (next_id s))
    (set_timers
       (timers s ++ [{| t_id := next_id s; t_due := now s + delay; t_cb := cb |}]) s).

Definition clearTimeout (tid : nat) (s : State) : State :=
  set_timers (List.filter (fun t => negb (t_id t =? tid)%nat) (timers s)) s.

(** [list.forEach((a, index) => setTimeout(cb(a), index * gap))] *)
Fixpoint stagger {A : Type} (cb : A -> Callback) (gap : Z) (index : Z)
    (l : list A) (s : State) : State :=
  match l with
  | [] => s
  | a :: l' => stagger cb gap (index + 1) l' (setTimeout (cb a) (index * gap) s)
  end.

(** The [finally] block of [attemptLoad]. *)
Definition finally_block (key : string) (s : State) : State :=
  set_chunkLoadQueue (delete key (chunkLoadQueue s))
    (set_inflight (inflight s ∖ {[key]}) s).

Definition find_request (rid : nat) (s : State) : option Request :=
  List.find (fun r => (r_id r =? rid)%nat) (requests s).

Definition drop_request (rid : nat) (s : State) : State :=
  set_requests (List.filter (fun r => negb (r_id r =? rid)%nat) (requests s)) s.

Definition find_timer (tid : nat) (s : State) : option Timer :=
  List.find (fun t => (t_id t =? tid)%nat) (timers s).

(** No other pending timer is to run before [t]: timers run in the order of
    their due times, and in the order they were set when these are equal. *)
Definition runs_first (t : Timer) (s : State) : bool :=
  forallb (fun t' => (t_due t <? t_due t') ||
                     ((t_due t =? t_due t') && (t_id t <=? t_id t')%nat))
          (timers s).

Section Streaming.
Variable env : Externals.

(** From [buildInstancedChunk] to [loaded.set(key, group)]: lines 125-139,
    and 170-188 for a generated grid. The collaborators
    ([buildInstancedChunk], the THREE constructors, the generator and the
    painter) are taken to return normally. *)
Definition publish (key : string) (cx cz : Z) (p : Provenance) (grid : Grid)
    (s : State) : State :=
  let group := {| g_id := next_id s; g_grid := grid; g_helper := p;
                  g_position := (cx * CHUNK env, 0, cz * CHUNK env) |} in
  set_loaded (map_set key group (loaded s))
    (set_worldGroup (worldGroup s ++ [group])
       (set_next_id (S (next_id s)) (emit (Build key p grid) s))).

(** Lines 163-167: the generated grid, painted; [n] counts the calls of
    [Math.random] before this one. *)
Definition local_grid (n : nat) : Grid :=
  let local := generateChunk (CHUNK env) (BASE_BLOCK env) in
  let local := PaintLayer env local (CHUNK env) (BASE_BLOCK env)
                 (Block_Grass env) 2 Contiguous in
  PaintLayer env local (CHUNK env) (BASE_BLOCK env)
    (Block_Dirt env) (random4 env n + 1) AnyDepth.

(** The [catch] block of [attemptLoad], lines 143-194. *)
Definition catch_block (key : string) (cx cz : Z) (retryCount : Z)
    (s : State) : State :=
  if (retryCount <? maxRetries) && negb (disposed s) then
    let delay := baseRetryDelay * 2 ^ retryCount in
    setTimeout (CbRetry key cx cz retryCount) delay s
  else
    let s := emit (Generate key) s in
    let local := local_grid (randoms s) in
    let s := set_randoms (S (randoms s)) s in
    if negb (disposed s) then publish key cx cz Local local s else s.

(** An attempt that throws: the [catch] block, then the [finally] block. *)
Definition attempt_failed (r : Request) (s : State) : State :=
  finally_block (r_key r)
    (catch_block (r_key r) (r_cx r) (r_cz r) (r_retryCount r) s).

(** [attemptLoad(retryCount)] up to [await fetch(...)], lines 78-93. *)
Definition attemptLoad (key : string) (cx cz : Z) (retryCount : Z)
    (s : State) : State :=
  if disposed s then s
  else
    let rid := next_id s in
    let s := set_next_id (S rid) s in
    let timeoutId := next_id s in
    let s := setTimeout (CbAbort rid) 10000 s in
    let s := emit (Fetch key cx cz retryCount) s in
    set_requests
      (requests s ++ [{| r_id := rid; r_key := key; r_cx := cx; r_cz := cz;
                         r_retryCount := retryCount; r_phase := AwaitFetch;
                         r_timeoutId := timeoutId |}]) s.

(** [loadChunkAt(cx, cz, priority)], lines 69-76 and 201. *)
Definition loadChunkAt (cx cz : Z) (priority : Priority) (s : State) : State :=
  let key := Key.keyOf cx cz in
  if map_has key (loaded s) || bool_decide (key ∈ inflight s) || disposed s
  then s
  else
    let s := set_chunkLoadQueue (<[key := (priority, 0)]> (chunkLoadQueue s)) s in
    let s := set_inflight ({[key]} ∪ inflight s) s in
    attemptLoad key cx cz 0 s.

(** [await fetch(...)] resolves with [res.ok = ok]: lines 95-107. The
    request [r] has been taken out of the pending ones. *)
Definition resume_fetch (r : Request) (ok : bool) (s : State) : State :=
  let s := clearTimeout (r_timeoutId r) s in
  if negb ok then attempt_failed r s
  else
    set_requests
      (requests s ++ [{| r_id := r_id r; r_key := r_key r; r_cx := r_cx r;
                         r_cz := r_cz r; r_retryCount := r_retryCount r;
                         r_phase := AwaitBody;
                         r_timeoutId := r_timeoutId r |}]) s.

(** [await res.arrayBuffer()] resolves with [buf]: lines 108-141, then the
    [finally] block. *)
Definition resume_body (r : Request) (buf : Grid) (s : State) : State :=
  let byteLength := Z.of_nat (length buf) in
  if byteLength =? 0 then attempt_failed r s
  else
    let expectedSize := CHUNK env * CHUNK env * CHUNK env in
    if negb (byteLength =? expectedSize) then attempt_failed r s
    else
      let grid := buf in
      if disposed s then finally_block (r_key r) s
      else if negb (Z.of_nat (length grid) =? expectedSize)
      then attempt_failed r s
      else
        finally_block (r_key r)
          (publish (r_key r) (r_cx r) (r_cz r) Remote grid s).

(** A timer callback. Aborting a pending attempt makes its [await] throw. *)
Definition run_callback (cb : Callback) (s : State) : State :=
  match cb with
  | CbAbort rid =>
      match find_request rid s with
      | Some r => attempt_failed r (drop_request rid s)
      | None => s
      end
  | CbRetry key cx cz retryCount =>
      if negb (disposed s) && bool_decide (key ∈ inflight s)
      then attemptLoad key cx cz (retryCount + 1) s
      else s
  | CbLoad x z priority =>
      if negb (disposed s) then loadChunkAt x z priority s else s
  | CbPrune key =>
      match map_get key (loaded s) with
      | Some group =>
          let s := set_worldGroup
                     (List.filter (fun g => negb (g_id g =? g_id group)%nat)
                                  (worldGroup s)) s in
          let s := emit (DisposeObject (g_id group)) s in
          set_loaded (map_delete key (loaded s)) s
      | None => s
      end
  end.

(** The first loop of [ensureChunksAround], lines 208-223. *)
Definition scan_window (cx cz : Z) (s : State) : list Candidate :=
  flat_map (fun dz =>
    flat_map (fun dx =>
      let chunkX := cx + dx in
      let chunkZ := cz + dz in
      let key := Key.keyOf chunkX chunkZ in
      if map_has key (loaded s) || bool_decide (key ∈ inflight s) then []
      else [{| c_x := chunkX; c_z := chunkZ;
               c_priority := {| dist2 := dx * dx + dz * dz |} |}])
    offsets) offsets.

Definition chunksToLoad (cx cz : Z) (s : State) : list Candidate :=
  sort_by_priority (scan_window cx cz s).

(** The prune scan, lines 238-244. *)
Definition chunksToRemove (cx cz : Z) (s : State) : list string :=
  map fst (List.filter (fun kg => out_of_range cx cz (fst kg)) (loaded s)).

(** [ensureChunksAround(cx, cz)], lines 204-258. *)
Definition ensureChunksAround (cx cz : Z) (s : State) : State :=
  let s1 := stagger (fun c => CbLoad (c_x c) (c_z c) (c_priority c)) 50 0
              (chunksToLoad cx cz s) s in
  stagger CbPrune 10 0 (chunksToRemove cx cz s1) s1.

(** The cleanup function of the effect, lines 328-336. *)
Definition cleanup (s : State) : State :=
  let s := set_disposed true s in
  let s := set_chunkLoadQueue ∅ s in
  let s := set_inflight ∅ s in
  let s := fold_left (fun s kg => emit (DisposeObject (g_id (snd kg))) s)
             (loaded s) s in
  set_loaded [] s.

(** ** The event loop *)

Inductive Event :=
| EEnsure (cx cz : Z)            (* the camera enters chunk (cx, cz) *)
| EElapse (dt : Z)               (* time passes *)
| EFire (tid : nat)              (* the callback of a due timer runs *)
| EResponse (rid : nat) (ok : bool)   (* fetch() resolves *)
| EFetchError (rid : nat)        (* fetch() rejects *)
| EBody (rid : nat) (buf : Grid) (* arrayBuffer() resolves *)
| EBodyError (rid : nat)         (* arrayBuffer() rejects *)
| EDispose.                      (* the effect is cleaned up *)

(** One turn of the event loop; [None] when the event cannot happen in
    this state. *)
Definition step (s : State) (e : Event) : option State :=
  match e with
  | EEnsure cx cz => Some (ensureChunksAround cx cz s)
  | EElapse dt => if 0 <=? dt then Some (set_now (now s + dt) s) else None
  | EFire tid =>
      match find_timer tid s with
      | Some t =>
          if (t_due t <=? now s) && runs_first t s
          then Some (run_callback (t_cb t) (clearTimeout tid s))
          else None
      | None => None
      end
  | EResponse rid ok =>
      match find_request rid s with
      | Some r =>
          match r_phase r with
          | AwaitFetch => Some (resume_fetch r ok (drop_request rid s))
          | AwaitBody => None
          end
      | None => None
      end
  | EFetchError rid =>
      match find_request rid s with
      | Some r =>
          match r_phase r with
          | AwaitFetch => Some (attempt_failed r (drop_request rid s))
          | AwaitBody => None
          end
      | None => None
      end
  | EBody rid buf =>
      match find_request rid s with
      | Some r =>
          match r_phase r with
          | AwaitBody => Some (resume_body r buf (drop_request rid s))
          | AwaitFetch => None
          end
      | None => None
      end
  | EBodyError rid =>
      match find_request rid s with
      | Some r =>
          match r_phase r with
          | AwaitBody => Some (attempt_failed r (drop_request rid s))
          | AwaitFetch => None
          end
      | None => None
      end
  | EDispose => Some (cleanup s)
  end.

Fixpoint run (s : State) (es : list Event) : option State :=
  match es with
  | [] => Some s
  | e :: es' =>
      match step s e with
      | Some s' => run s' es'
      | None => None
      end
  end.

End Streaming.

(** ** Notions used in the statements *)




Definition is_build (e : Effect) : bool :=
  match e with Build _ _ _ => true | _ => false end.



(** The timers that [ensureChunksAround] sets: one per chunk to load,
    50 ms apart, then one per chunk to remove, 10 ms apart. *)
Definition load_timers (cx cz : Z) (s : State) : list Timer :=
  imap (fun i c => {| t_id := next_id s + i;
                      t_due := now s + Z.of_nat i * 50;
                      t_cb := CbLoad (c_x c) (c_z c) (c_priority c) |})
       (chunksToLoad cx cz s).

Definition prune_timers (cx cz : Z) (s : State) : list Timer :=
  imap (fun i key => {| t_id := next_id s + length (chunksToLoad cx cz s) + i;
                        t_due := now s + Z.of_nat i * 10;
                        t_cb := CbPrune key |})
       (chunksToRemove cx cz s).

(** What [buildInstancedChunk] is given: a fetched buffer of [CHUNK^3] bytes,
    or a grid of the local generator. *)
Definition checked_build (env : Externals) (e : Effect) : Prop :=
  match e with
  | Build _ Remote grid =>
      Z.of_nat (length grid) = CHUNK env * CHUNK env * CHUNK env
  | Build _ Local grid => exists n, grid = local_grid env n
  | _ => True
  end.

Definition is_fetch_of (key : string) (e : Effect) : bool :=
  match e with Fetch k _ _ _ => String.eqb k key | _ => false end.

Definition is_generate_of (key : string) (e : Effect) : bool :=
  match e with Generate k => String.eqb k key | _ => false end.

Definition is_retry_of (key : string) (t : Timer) : bool :=
  match t_cb t with CbRetry k _ _ _ => String.eqb k key | _ => false end.

Definition requests_of (key : string) (s : State) : list Request :=
  List.filter (fun r => String.eqb (r_key r) key) (requests s).

(** What is left of the load of [key]: the attempts made, the calls of the
    fallback generator, whether the chunk is loaded, the attempts in
    progress, the retry timers pending. *)
Definition load_summary (key : string) (s : State)
    : nat * nat * bool * list Request * list Timer :=
  (length (List.filter (is_fetch_of key) (effects s)),
   length (List.filter (is_generate_of key) (effects s)),
   map_has key (loaded s),
   requests_of key s,
   List.filter (is_retry_of key) (timers s)).

(** The request whose invocation of [attemptLoad] ends in this step: the
    attempt fails (error status, rejected [fetch] or [arrayBuffer], abort
    timer) or the body arrives. *)
Definition completed_attempt (s : State) (e : Event) : option Request :=
  match e with
  | EResponse rid false | EFetchError rid | EBody rid _ | EBodyError rid =>
      find_request rid s
  | EFire tid =>
      match find_timer tid s with
      | Some t =>
          match t_cb t with
          | CbAbort rid => find_request rid s
          | _ => None
          end
      | None => None
      end
  | _ => None
  end.

(** ** Scenarios

    A configuration with chunks of 2 x 2 x 2 cells and a painter that
    paints nothing, and runs of the event loop used as examples. *)

Definition demo_env : Externals :=
  {| CHUNK := 2; BASE_BLOCK := x01; Block_Grass := x03; Block_Dirt := x02;
     PaintLayer := fun grid _ _ _ _ _ => grid; random4 := fun _ => 0 |}.

Definition demo_grid : Grid := repeat x01 8.

(** The camera starts in chunk (0, 0); the loads of (0, 0) and, 50 ms later,
    of (0, -1) start. (The camera then enters chunk (0, -1).) *)
Definition two_loads_started : list Event :=
  [EEnsure 0 0; EFire 0; EElapse 50; EFire 1].


(** The camera starts in chunk (0, 0); the load of (0, 0) starts at once and
    its request is answered with an error status 20 ms later. *)
Definition first_failure : list Event :=
  [EEnsure 0 0; EFire 0; EElapse 20; EResponse 169 false].

(** The loads of the next 18 chunks start, 50 ms apart; it is 900 ms. *)
Definition neighbours_start : list Event :=
  [EElapse 30; EFire 1] ++ flat_map (fun i => [EElapse 50; EFire i]) (seq 2 17).

(** Nothing else happens to chunk (0, 0) until its retry timer fires, 1 s
    after the failure. *)
Definition retry_alone : list Event :=
  first_failure ++ neighbours_start
  ++ [EElapse 50; EFire 19; EElapse 50; EFire 20; EElapse 20; EFire 171].

(** At 900 ms the camera enters chunk (1, 0): chunk (0, 0) is a candidate
    again and its load starts a second time. *)
Definition camera_moves : list Event :=
  first_failure ++ neighbours_start ++ [EEnsure 1 0; EFire 208].

(** The retry timer of the first load fires at 1020 ms. *)
Definition retry_joins : list Event :=
  camera_moves
  ++ [EElapse 50; EFire 19; EFire 209; EElapse 50; EFire 20; EFire 210;
      EElapse 20; EFire 171].

(** The second load gets its chunk, then the response of the retry comes. *)
Definition second_load_done : list Event :=
  retry_joins
  ++ [EElapse 30; EResponse 359 true; EBody 359 demo_grid;
      EElapse 30; EResponse 367 true].

(** The camera starts in chunk (0, 0), the load of (0, 0) starts, and the
    component is disposed of. *)
Definition disposed_early : list Event := [EEnsure 0 0; EFire 0; EDispose].


(** Projections of the state through its update functions. *)
Ltac fields :=
  cbn [loaded inflight disposed chunkLoadQueue worldGroup timers requests now
       next_id randoms effects set_loaded set_inflight set_disposed
       set_chunkLoadQueue set_worldGroup set_timers set_requests set_now
       set_next_id set_randoms emit setTimeout clearTimeout drop_request
       finally_block] in *.

(** ** Further notions used in the statements *)

Definition is_fetch (e : Effect) : bool :=
  match e with Fetch _ _ _ _ => true | _ => false end.

(** What a timer does and when, whatever its id. *)
Definition timer_job (t : Timer) : Callback * Z := (t_cb t, t_due t).

(** ** The steps of the event loop, by kind

    What [step] can do, with the conditions under which it does it. A failing
    attempt ([attempt_failed]) comes from an error status (its abort timer,
    [r_timeoutId], has just been cleared), from a rejected [fetch] or
    [arrayBuffer] (no timer is touched) or from its abort timer firing (that
    timer is gone). *)
Definition timer_cleared (s : State) (r : Request) (s1 : State) : Prop :=
  s1 = s \/ s1 = clearTimeout (r_timeoutId r) s \/
  exists t, In t (timers s) /\ t_cb t = CbAbort (r_id r) /\
            s1 = clearTimeout (t_id t) s.

Inductive Transition (env : Externals) (s : State) : State -> Prop :=
| T_ensure cx cz :
    Transition env s (ensureChunksAround cx cz s)
| T_elapse dt :
    0 <= dt -> Transition env s (set_now (now s + dt) s)
| T_idle t :
    In t (timers s) ->
    (forall r, In r (requests s) -> t_cb t <> CbAbort (r_id r)) ->
    Transition env s (clearTimeout (t_id t) s)
| T_fail r s1 :
    In r (requests s) -> timer_cleared s r s1 ->
    Transition env s (attempt_failed env r (drop_request (r_id r) s1))
| T_response r :
    In r (requests s) -> r_phase r = AwaitFetch ->
    Transition env s
      (let s0 := clearTimeout (r_timeoutId r) (drop_request (r_id r) s) in
       set_requests
         (requests s0 ++ [{| r_id := r_id r; r_key := r_key r; r_cx := r_cx r;
                             r_cz := r_cz r; r_retryCount := r_retryCount r;
                             r_phase := AwaitBody;
                             r_timeoutId := r_timeoutId r |}]) s0)
| T_body r buf :
    In r (requests s) -> r_phase r = AwaitBody ->
    Transition env s (resume_body env r buf (drop_request (r_id r) s))
| T_retry t key cx cz n :
    In t (timers s) -> t_cb t = CbRetry key cx cz n ->
    disposed s = false -> key ∈ inflight s ->
    Transition env s (attemptLoad key cx cz (n + 1) (clearTimeout (t_id t) s))
| T_load t x z priority :
    In t (timers s) -> t_cb t = CbLoad x z priority ->
    disposed s = false ->
    map_has (Key.keyOf x z) (loaded s) = false ->
    Key.keyOf x z ∉ inflight s ->
    Transition env s
      (let s0 := clearTimeout (t_id t) s in
       attemptLoad (Key.keyOf x z) x z 0
         (set_inflight ({[Key.keyOf x z]} ∪ inflight s0)
            (set_chunkLoadQueue
               (<[Key.keyOf x z := (priority, 0)]> (chunkLoadQueue s0)) s0)))
| T_prune t key group :
    In t (timers s) -> t_cb t = CbPrune key ->
    map_get key (loaded s) = Some group ->
    Transition env s
      (let s0 := clearTimeout (t_id t) s in
       set_loaded (map_delete key (loaded s0))
         (emit (DisposeObject (g_id group))
            (set_worldGroup
               (List.filter (fun g => negb (g_id g =? g_id group)%nat)
                            (worldGroup s0)) s0)))
| T_dispose :
    Transition env s (cleanup s).

(** ** Invariants of the reachable states *)

(** Ids are handed out once: the pending timers, the attempts in progress
    and the groups in the scene have ids below [next_id], and no two timers,
    attempts or groups share one. *)
Definition ids_ok (s : State) : Prop :=
  (forall t, In t (timers s) -> (t_id t < next_id s)%nat) /\
  (forall r, In r (requests s) -> (S (r_id r) < next_id s)%nat) /\
  (forall g, In g (worldGroup s) -> (g_id g < next_id s)%nat) /\
  NoDup (map t_id (timers s)) /\
  NoDup (map r_id (requests s)) /\
  NoDup (map g_id (worldGroup s)).

(** An attempt in progress keeps the key of its chunk, has made at most
    [maxRetries] retries, and its abort timer is the timer set just after it
    was created. *)
Definition request_ok (r : Request) : Prop :=
  r_timeoutId r = S (r_id r) /\
  r_key r = Key.keyOf (r_cx r) (r_cz r) /\
  0 <= r_retryCount r <= maxRetries.

(** An abort timer belongs to the attempt created just before it; a retry
    timer keeps the key of its chunk and is set for a retry that is left. *)
Definition callback_ok (t : Timer) : Prop :=
  match t_cb t with
  | CbAbort rid => t_id t = S rid
  | CbRetry key cx cz n => key = Key.keyOf cx cz /\ 0 <= n < maxRetries
  | CbLoad _ _ _ | CbPrune _ => True
  end.

(** While an attempt waits for the response its abort timer is pending;
    once the response is there the timer is gone. *)
Definition abort_timer_ok (s : State) (r : Request) : Prop :=
  match r_phase r with
  | AwaitFetch =>
      exists t, In t (timers s) /\ t_id t = S (r_id r) /\ t_cb t = CbAbort (r_id r)
  | AwaitBody =>
      forall t, In t (timers s) -> t_id t <> S (r_id r)
  end.

Definition attempts_ok (s : State) : Prop :=
  (forall r, In r (requests s) -> request_ok r /\ abort_timer_ok s r) /\
  (forall t, In t (timers s) -> callback_ok t).

(** [chunkLoadQueue] has an entry, with [retries: 0], for exactly the keys in
    flight; a key in flight is not loaded, and an attempt for it is in
    progress. *)
Definition inflight_ok (s : State) : Prop :=
  dom (chunkLoadQueue s) = inflight s /\
  (forall k v, chunkLoadQueue s !! k = Some v -> v.2 = 0) /\
  (forall k, k ∈ inflight s -> map_has k (loaded s) = false) /\
  (forall k, k ∈ inflight s -> exists r, In r (requests s) /\ r_key r = k).

(** Every record of [loaded] is a child of [worldGroup], stands under the
    key of the chunk it was built for, at that chunk's place; no key and no
    group occurs twice. *)
Definition registry_ok (env : Externals) (s : State) : Prop :=
  (forall k g, In (k, g) (loaded s) ->
     In g (worldGroup s) /\
     exists cx cz, k = Key.keyOf cx cz /\
                   g_position g = (cx * CHUNK env, 0, cz * CHUNK env)) /\
  NoDup (map fst (loaded s)) /\
  NoDup (map (fun kg => g_id (snd kg)) (loaded s)).

(** All of them. *)
Definition consistent (env : Externals) (s : State) : Prop :=
  ids_ok s /\ attempts_ok s /\ inflight_ok s /\ registry_ok env s.

(** How long after it was set a timer of an attempt is due: the abort timer
    10 s, a retry timer [baseRetryDelay * 2 ^ retryCount] ms. *)
Definition due_bound (cb : Callback) : option Z :=
  match cb with
  | CbAbort _ => Some 10000
  | CbRetry _ _ _ retryCount => Some (baseRetryDelay * 2 ^ retryCount)
  | CbLoad _ _ _ | CbPrune _ => None
  end.

(** No abort or retry timer is due later than that from now. *)
Definition due_ok (s : State) : Prop :=
  forall t b, In t (timers s) -> due_bound (t_cb t) = Some b ->
              t_due t <= now s + b.

(** ** The frame loop

    What [updateLoop] (lines 285-317) does for chunk streaming, lines
    304-313. The position of the camera after the movement of the frame
    (lines 286-302) is an input; positions are finite vectors of a type
    [Pos], with [far p q] for [p.manhattanDistanceTo(q) > 1e-4] and
    [chunk_of p] for the pair of [Math.round(p.x / CHUNK)] and
    [Math.round(p.z / CHUNK)]. [lastCamPos] starts as the vector of three
    [Infinity], which is far from every position, and [lastChunkX],
    [lastChunkZ] start as [NaN], which differs from every number: both are
    [None] here. *)
Section FrameLoop.
Context {Pos : Type}.
Variable far : Pos -> Pos -> bool.
Variable chunk_of : Pos -> Z * Z.

Record View := {
  core : State;
  lastCamPos : option Pos;
  lastChunk : option (Z * Z) }.

(** The effect up to the first frame: the initial call of
    [ensureChunksAround] (line 261) for the chunk of
    [CAMERA_INITIAL_POSITION], and the variables of the loop (lines
    277-281). *)
Definition mount (c0x c0z : Z) : View :=
  {| core := ensureChunksAround c0x c0z init;
     lastCamPos := None; lastChunk := None |}.

Definition updateLoop (pos : Pos) (v : View) : View :=
  let moved := match lastCamPos v with
               | None => true
               | Some p => far p pos
               end in
  if moved then
    let '(ccx, ccz) := chunk_of pos in
    let changed := match lastChunk v with
                   | None => true
                   | Some (lx, lz) => negb (ccx =? lx) || negb (ccz =? lz)
                   end in
    if changed then
      {| core := ensureChunksAround ccx ccz (core v);
         lastCamPos := Some pos; lastChunk := Some (ccx, ccz) |}
    else
      {| core := core v; lastCamPos := Some pos; lastChunk := lastChunk v |}
  else v.
End FrameLoop.

Arguments View : clear implicits.

(** The state that a run of the event loop ends in, in the configuration of
    the scenarios. *)
Definition state_after (es : list Event) : State :=
  default init (run demo_env init es).

(** * Properties *)

Example keyOf_ex1 : Key.keyOf 3 (-12) = "3,-12".
Proof. reflexivity. Qed.

Example keyOf_ex2 : Key.keyOf 0 (10 ^ 21) = "0,1e+21".
Proof. vm_compute. reflexivity. Qed.

Example keyOf_ex3 : Key.keyOf (- (15 * 10 ^ 20)) 7 = "-1.5e+21,7".
Proof. vm_compute. reflexivity. Qed.

Example parse_key_ex1 : Key.parse_key "3,-12" = (Some 3, Some (-12)).
Proof. reflexivity. Qed.

(** ** Keys *)

Section KeyFacts.
Import Key.

























End KeyFacts.

(** ** The event loop *)

Section Frames.
Variable env : Externals.

Lemma stagger_frame {A} (cb : A -> Callback) gap l : forall index s,
  let s' := stagger cb gap index l s in
  loaded s' = loaded s /\ inflight s' = inflight s /\
  disposed s' = disposed s /\ chunkLoadQueue s' = chunkLoadQueue s /\
  worldGroup s' = worldGroup s /\ requests s' = requests s /\
  now s' = now s /\ randoms s' = randoms s /\ effects s' = effects s.
Proof.
  induction l as [| a l IH]; intros index s; cbn [stagger].
  - repeat split.
  - specialize (IH (index + 1) (setTimeout (cb a) (index * gap) s)).
    cbn zeta in IH. fields. exact IH.
Qed.

Lemma stagger_timers {A} (cb : A -> Callback) gap l : forall index s,
  let s' := stagger cb gap index l s in
  timers s' =
    timers s ++
    imap (fun i a => {| t_id := next_id s + i;
                        t_due := now s + (index + Z.of_nat i) * gap;
                        t_cb := cb a |}) l /\
  next_id s' = (next_id s + length l)%nat.
Proof.
  induction l as [| a l IH]; intros index s; cbn [stagger imap length].
  - rewrite app_nil_r, Nat.add_0_r. split; reflexivity.
  - specialize (IH (index + 1) (setTimeout (cb a) (index * gap) s)).
    cbn zeta in IH. destruct IH as [IHt IHn]. rewrite IHt, IHn. fields.
    split; [| lia].
    rewrite <- app_assoc. cbn [app]. do 2 f_equal.
    + f_equal; [lia | f_equal; lia].
    + apply imap_ext. intros i x _. cbn. f_equal; [lia | f_equal; lia].
Qed.

(** *** After disposal *)

Lemma In_map_delete {V} k (m : list (string * V)) kv :
  In kv (map_delete k m) -> In kv m.
Proof.
  induction m as [| [k0 v0] m IH]; cbn [map_delete]; [done |].
  destruct (String.eqb k k0); cbn [In]; tauto.
Qed.

Lemma attempt_failed_disposed r s :
  disposed s = true ->
  let s' := attempt_failed env r s in
  loaded s' = loaded s /\ worldGroup s' = worldGroup s /\
  disposed s' = true /\ inflight s' = inflight s ∖ {[r_key r]} /\
  effects s' = effects s ++ [Generate (r_key r)] /\
  timers s' = timers s /\ requests s' = requests s.
Proof.
  intros Hd. unfold attempt_failed, catch_block.
  rewrite Hd, andb_false_r. fields. rewrite Hd. cbn [negb]. fields.
  repeat split. exact Hd.
Qed.

Lemma resume_body_disposed r buf s :
  disposed s = true ->
  let s' := resume_body env r buf s in
  loaded s' = loaded s /\ worldGroup s' = worldGroup s /\
  disposed s' = true /\ inflight s' = inflight s ∖ {[r_key r]} /\
  List.filter is_build (effects s') = List.filter is_build (effects s) /\
  timers s' = timers s /\ requests s' = requests s.
Proof.
  intros Hd. unfold resume_body.
  pose proof (attempt_failed_disposed r s Hd) as Hf. cbn zeta in Hf.
  assert (Hfb : List.filter is_build (effects (attempt_failed env r s)) =
                List.filter is_build (effects s)).
  { destruct Hf as (_ & _ & _ & _ & -> & _).
    rewrite List.filter_app. cbn. apply app_nil_r. }
  destruct Hf as (H1 & H2 & H3 & H4 & _ & H6 & H7).
  cbn zeta. rewrite Hd.
  repeat case_match; repeat split; assumption.
Qed.


Lemma cleanup_effects_frame (l : list (string * Group)) : forall s,
  let s' := fold_left (fun s kg => emit (DisposeObject (g_id (snd kg))) s) l s in
  loaded s' = loaded s /\ inflight s' = inflight s /\
  disposed s' = disposed s /\ chunkLoadQueue s' = chunkLoadQueue s /\
  worldGroup s' = worldGroup s /\ timers s' = timers s /\
  requests s' = requests s /\ now s' = now s /\ next_id s' = next_id s /\
  randoms s' = randoms s /\
  effects s' = effects s ++ map (fun kg => DisposeObject (g_id (snd kg))) l.
Proof.
  induction l as [| kg l IH]; intros s; cbn [fold_left map].
  - rewrite app_nil_r. repeat split.
  - specialize (IH (emit (DisposeObject (g_id (snd kg))) s)).
    cbn zeta in IH. fields. rewrite <- app_assoc in IH. exact IH.
Qed.




End Frames.

(** *** Invariants of the event loop

    A property of the state that every elementary update keeps is kept by
    every step. The two publications are the only updates with a side
    condition: a fetched grid has passed the size check, a local grid comes
    from the generator. *)
Section Invariant.
Variable env : Externals.
Variable I : State -> Prop.

Hypothesis I_timers : forall v s, I s -> I (set_timers v s).
Hypothesis I_next_id : forall v s, I s -> I (set_next_id v s).
Hypothesis I_requests : forall v s, I s -> I (set_requests v s).
Hypothesis I_now : forall v s, I s -> I (set_now v s).
Hypothesis I_randoms : forall v s, I s -> I (set_randoms v s).
Hypothesis I_inflight : forall v s, I s -> I (set_inflight v s).
Hypothesis I_queue : forall v s, I s -> I (set_chunkLoadQueue v s).
Hypothesis I_disposed : forall v s, I s -> I (set_disposed v s).
Hypothesis I_emit : forall e s, is_build e = false -> I s -> I (emit e s).
Hypothesis I_publish_remote : forall key cx cz grid s,
  Z.of_nat (length grid) = CHUNK env * CHUNK env * CHUNK env ->
  I s -> I (publish env key cx cz Remote grid s).
Hypothesis I_publish_local : forall key cx cz n s,
  I s -> I (publish env key cx cz Local (local_grid env n) s).
Hypothesis I_detach : forall f s,
  I s -> I (set_worldGroup (List.filter f (worldGroup s)) s).
Hypothesis I_delete : forall key s,
  I s -> I (set_loaded (map_delete key (loaded s)) s).
Hypothesis I_clear : forall s, I s -> I (set_loaded [] s).

Lemma I_setTimeout cb delay s : I s -> I (setTimeout cb delay s).
Proof. intros H. unfold setTimeout. auto. Qed.

Lemma I_clearTimeout tid s : I s -> I (clearTimeout tid s).
Proof. intros H. unfold clearTimeout. auto. Qed.

Lemma I_drop_request rid s : I s -> I (drop_request rid s).
Proof. intros H. unfold drop_request. auto. Qed.

Lemma I_finally_block key s : I s -> I (finally_block key s).
Proof. intros H. unfold finally_block. auto. Qed.

Lemma I_stagger {A} (cb : A -> Callback) gap l : forall index s,
  I s -> I (stagger cb gap index l s).
Proof.
  induction l as [| a l IH]; intros index s H; cbn [stagger]; [exact H |].
  apply IH, I_setTimeout, H.
Qed.

Lemma I_attempt_failed r s : I s -> I (attempt_failed env r s).
Proof.
  intros H. unfold attempt_failed, catch_block. apply I_finally_block.
  destruct (_ && _); [apply I_setTimeout, H |].
  cbn zeta. destruct (negb _); auto.
Qed.

Lemma I_attemptLoad key cx cz n s : I s -> I (attemptLoad key cx cz n s).
Proof.
  intros H. unfold attemptLoad. destruct (disposed s); [exact H |].
  cbn zeta. apply I_requests, I_emit; [reflexivity |].
  apply I_setTimeout. auto.
Qed.

Lemma I_loadChunkAt x z p s : I s -> I (loadChunkAt x z p s).
Proof.
  intros H. unfold loadChunkAt. destruct (_ || _); [exact H |].
  cbn zeta. apply I_attemptLoad. auto.
Qed.

Lemma I_resume_fetch r ok s : I s -> I (resume_fetch env r ok s).
Proof.
  intros H. unfold resume_fetch. cbn zeta. destruct (negb ok).
  - apply I_attempt_failed, I_clearTimeout, H.
  - apply I_requests, I_clearTimeout, H.
Qed.

Lemma I_resume_body r buf s : I s -> I (resume_body env r buf s).
Proof.
  intros H. unfold resume_body. cbn zeta.
  destruct (_ =? 0); [apply I_attempt_failed, H |].
  destruct (Z.of_nat (length buf) =? _) eqn:E; cbn [negb];
    [| apply I_attempt_failed, H].
  apply Z.eqb_eq in E.
  destruct (disposed s); [apply I_finally_block, H |].
  apply I_finally_block, I_publish_remote; assumption.
Qed.

Lemma I_run_callback cb s : I s -> I (run_callback env cb s).
Proof.
  intros H. destruct cb as [rid | key cx cz n | x z p | key]; cbn [run_callback].
  - destruct (find_request rid s); [| exact H].
    apply I_attempt_failed, I_drop_request, H.
  - destruct (_ && _); [apply I_attemptLoad, H | exact H].
  - destruct (negb _); [apply I_loadChunkAt, H | exact H].
  - destruct (map_get key (loaded s)) as [group |]; [| exact H].
    cbn zeta.
    apply (I_delete key (emit _ (set_worldGroup _ s))).
    apply I_emit; [reflexivity |]. apply I_detach, H.
Qed.

Lemma I_cleanup s : I s -> I (cleanup s).
Proof.
  intros H. unfold cleanup. cbn zeta. apply I_clear.
  assert (G : forall (l : list (string * Group)) s0, I s0 ->
    I (fold_left (fun s kg => emit (DisposeObject (g_id (snd kg))) s) l s0)).
  { induction l as [| kg l IH]; intros s0 H0; cbn [fold_left]; [exact H0 |].
    apply IH, I_emit; [reflexivity | exact H0]. }
  apply G. auto.
Qed.

Lemma step_invariant s e s' : I s -> step env s e = Some s' -> I s'.
Proof.
  intros H Hs.
  destruct e as [cx cz | dt | tid | rid ok | rid | rid buf | rid |];
    cbn [step] in Hs.
  - injection Hs as <-. unfold ensureChunksAround. cbn zeta.
    apply I_stagger, I_stagger, H.
  - destruct (0 <=? dt); [| discriminate]. injection Hs as <-. auto.
  - destruct (find_timer tid s) as [t |]; [| discriminate].
    destruct (_ && _); [| discriminate]. injection Hs as <-.
    apply I_run_callback, I_clearTimeout, H.
  - destruct (find_request rid s) as [r |]; [| discriminate].
    destruct (r_phase r); [| discriminate]. injection Hs as <-.
    apply I_resume_fetch, I_drop_request, H.
  - destruct (find_request rid s) as [r |]; [| discriminate].
    destruct (r_phase r); [| discriminate]. injection Hs as <-.
    apply I_attempt_failed, I_drop_request, H.
  - destruct (find_request rid s) as [r |]; [| discriminate].
    destruct (r_phase r); [discriminate |]. injection Hs as <-.
    apply I_resume_body, I_drop_request, H.
  - destruct (find_request rid s) as [r |]; [| discriminate].
    destruct (r_phase r); [discriminate |]. injection Hs as <-.
    apply I_attempt_failed, I_drop_request, H.
  - injection Hs as <-. apply I_cleanup, H.
Qed.

Lemma run_invariant es : forall s s',
  I s -> run env s es = Some s' -> I s'.
Proof.
  induction es as [| e es IH]; intros s s' H Hr; cbn [run] in Hr.
  - injection Hr as <-. exact H.
  - destruct (step env s e) as [s1 |] eqn:Hs; [| discriminate].
    exact (IH s1 s' (step_invariant s e s1 H Hs) Hr).
Qed.
End Invariant.

(** ** Priorities and the load window *)

Section PriorityFacts.
Local Open Scope R_scope.



End PriorityFacts.

Section SortFacts.


Lemma insert_by_priority_perm c l :
  Permutation (insert_by_priority c l) (c :: l).
Proof.
  induction l as [| y l IH]; cbn [insert_by_priority]; [reflexivity |].
  destruct (priority_ltb _ _); [| reflexivity].
  rewrite IH. apply perm_swap.
Qed.

Lemma sort_by_priority_perm l : Permutation (sort_by_priority l) l.
Proof.
  induction l as [| c l IH]; cbn [sort_by_priority foldr]; [reflexivity |].
  rewrite insert_by_priority_perm. by constructor.
Qed.



End SortFacts.

Section WindowFacts.
Variables (cx cz : Z) (s : State).






End WindowFacts.

(** ** [ensureChunksAround] *)

Section EnsureFacts.
Variables (cx cz : Z) (s : State).

Lemma ensureChunksAround_timers :
  timers (ensureChunksAround cx cz s) = timers s ++ load_timers cx cz s ++ prune_timers cx cz s.
Proof.
  unfold ensureChunksAround. cbn zeta.
  set (cb := fun c => CbLoad (c_x c) (c_z c) (c_priority c)).
  destruct (stagger_frame cb 50 (chunksToLoad cx cz s) 0 s)
    as (H1 & _ & _ & _ & _ & _ & H7 & _).
  destruct (stagger_timers cb 50 (chunksToLoad cx cz s) 0 s) as [Ht Hn].
  cbn zeta in *.
  set (s1 := stagger cb 50 0 (chunksToLoad cx cz s) s) in *.
  destruct (stagger_timers CbPrune 10 (chunksToRemove cx cz s1) 0 s1) as [Gt _].
  cbn zeta in Gt. rewrite Gt, Ht, Hn, H7, <- app_assoc.
  unfold chunksToRemove. rewrite H1. reflexivity.
Qed.

Lemma ensureChunksAround_frame :
  let s' := ensureChunksAround cx cz s in
  loaded s' = loaded s /\ inflight s' = inflight s /\
  disposed s' = disposed s /\ chunkLoadQueue s' = chunkLoadQueue s /\
  worldGroup s' = worldGroup s /\ requests s' = requests s /\
  now s' = now s /\ randoms s' = randoms s /\ effects s' = effects s.
Proof.
  unfold ensureChunksAround. cbn zeta.
  match goal with |- context [stagger CbPrune 10 0 ?l ?s1] =>
    destruct (stagger_frame CbPrune 10 l 0 s1)
      as (G1 & G2 & G3 & G4 & G5 & G6 & G7 & G8 & G9) end.
  cbn zeta in *. rewrite G1, G2, G3, G4, G5, G6, G7, G8, G9.
  apply (stagger_frame (fun c => CbLoad (c_x c) (c_z c) (c_priority c))).
Qed.


End EnsureFacts.

Section PruneFacts.
Variable env : Externals.

End PruneFacts.

Section WindowNoDup.
Variables (cx cz : Z) (s : State).



End WindowNoDup.






Section SizeCheck.
Variable env : Externals.

Lemma checked_build_other e : is_build e = false -> checked_build env e.
Proof. destruct e; try discriminate; intros _; exact Logic.I. Qed.

Lemma builds_checked es s :
  run env init es = Some s -> List.Forall (checked_build env) (effects s).
Proof.
  apply (run_invariant env (fun s => List.Forall (checked_build env) (effects s)));
    try (intros; assumption).
  - intros e s0 He H. cbn [emit effects].
    apply List.Forall_app. split; [exact H |].
    constructor; [apply checked_build_other, He | constructor].
  - intros key cx cz grid s0 Hlen H. unfold publish. fields.
    apply List.Forall_app. split; [exact H |].
    constructor; [exact Hlen | constructor].
  - intros key cx cz n s0 H. unfold publish. fields.
    apply List.Forall_app. split; [exact H |].
    constructor; [exists n; reflexivity | constructor].
  - constructor.
Qed.

Lemma resume_body_wrong_size r buf s :
  buf = [] \/ Z.of_nat (length buf) <> CHUNK env * CHUNK env * CHUNK env ->
  resume_body env r buf s = attempt_failed env r s.
Proof.
  intros H. unfold resume_body. cbn zeta.
  destruct (Z.of_nat (length buf) =? 0) eqn:E0; [reflexivity |].
  destruct H as [-> | H]; [discriminate E0 |].
  apply Z.eqb_neq in H. rewrite H. reflexivity.
Qed.

Lemma local_grid_length n :
  0 <= CHUNK env ->
  (forall grid size base block depth policy,
     length (PaintLayer env grid size base block depth policy) = length grid) ->
  Z.of_nat (length (local_grid env n)) = CHUNK env * CHUNK env * CHUNK env.
Proof.
  intros Hc Hp. unfold local_grid, generateChunk. cbn zeta.
  rewrite !Hp, repeat_length, Z2Nat.id; [reflexivity |].
  apply Z.mul_nonneg_nonneg; [apply Z.mul_nonneg_nonneg |]; exact Hc.
Qed.

(** C9. A fetched body that is empty or whose length is not [CHUNK^3] makes
    the attempt fail like a thrown error does (the [catch] block runs: a
    retry is scheduled or the fallback is taken) and is not given to
    [buildInstancedChunk]: every fetched buffer that is ever given to it
    has length [CHUNK^3]. So has every generated grid, when the painter
    keeps the length of the grid, and with them every buffer. *)
Theorem fetched_body_is_size_checked :
  (forall r buf s,
     buf = [] \/ Z.of_nat (length buf) <> CHUNK env * CHUNK env * CHUNK env ->
     resume_body env r buf s = attempt_failed env r s) /\
  (forall es s key grid,
     run env init es = Some s -> In (Build key Remote grid) (effects s) ->
     Z.of_nat (length grid) = CHUNK env * CHUNK env * CHUNK env) /\
  (0 <= CHUNK env ->
   (forall grid size base block depth policy,
      length (PaintLayer env grid size base block depth policy) = length grid) ->
   forall es s key p grid,
     run env init es = Some s -> In (Build key p grid) (effects s) ->
     Z.of_nat (length grid) = CHUNK env * CHUNK env * CHUNK env).
Proof.
  split; [exact resume_body_wrong_size | split].
  - intros es s key grid Hr Hin.
    pose proof (builds_checked es s Hr) as H.
    rewrite List.Forall_forall in H. exact (H _ Hin).
  - intros Hc Hp es s key p grid Hr Hin.
    pose proof (builds_checked es s Hr) as H.
    rewrite List.Forall_forall in H. specialize (H _ Hin).
    destruct p; [exact H |]. destruct H as [n ->].
    apply local_grid_length; assumption.
Qed.
End SizeCheck.

(** ** The registry *)

Section MapFacts.
Context {V : Type}.
Implicit Types (m : list (string * V)) (k : string).

Lemma map_get_None k m : map_get k m = None <-> ~ In k (map fst m).
Proof.
  induction m as [| [k' v'] m IH]; cbn [map_get map fst In]; [tauto |].
  destruct (String.eqb_spec k k') as [-> | Hne].
  - split; [discriminate | tauto].
  - rewrite IH. split; [| tauto]. intros H [E | Hin]; [congruence | tauto].
Qed.

Lemma map_has_true k m : map_has k m = true <-> In k (map fst m).
Proof.
  unfold map_has. pose proof (map_get_None k m) as H.
  destruct (map_get k m).
  - split; [intros _ | reflexivity].
    destruct (in_dec string_dec k (map fst m)) as [Hin | Hn]; [exact Hin |].
    apply H in Hn. discriminate.
  - split; [discriminate |]. intros Hin. apply H in Hin; [destruct Hin | reflexivity].
Qed.

Lemma map_set_keys k v m :
  map fst (map_set k v m) =
  if map_has k m then map fst m else map fst m ++ [k].
Proof.
  unfold map_has.
  induction m as [| [k' v'] m IH]; cbn [map_set map_get map fst app]; [reflexivity |].
  destruct (String.eqb k k'); cbn [map fst]; [reflexivity |].
  rewrite IH. destruct (map_get k m); reflexivity.
Qed.


Lemma map_set_NoDup k v m : NoDup (map fst m) -> NoDup (map fst (map_set k v m)).
Proof.
  intros H. rewrite map_set_keys. destruct (map_has k m) eqn:E; [exact H |].
  apply NoDup_app. repeat split; [exact H | | apply NoDup_singleton].
  intros x Hx ->%list_elem_of_singleton.
  apply list_elem_of_In, map_has_true in Hx. congruence.
Qed.

Lemma map_delete_keys_sub k m x :
  In x (map fst (map_delete k m)) -> In x (map fst m).
Proof.
  intros ([k' v'] & <- & Hin)%in_map_iff. apply In_map_delete in Hin.
  apply in_map_iff. eexists. split; [| exact Hin]. reflexivity.
Qed.

Lemma map_delete_NoDup k m : NoDup (map fst m) -> NoDup (map fst (map_delete k m)).
Proof.
  induction m as [| [k' v'] m IH]; cbn [map_delete map fst]; [auto |].
  intros [Hk Hm]%NoDup_cons. destruct (String.eqb k k'); [exact Hm |].
  cbn [map fst]. apply NoDup_cons. split; [| apply IH, Hm].
  intros Hin%list_elem_of_In%map_delete_keys_sub. apply Hk, list_elem_of_In, Hin.
Qed.
End MapFacts.

Section Registry.
Variable env : Externals.



End Registry.

(** ** The in-flight set *)

Section InFlight.
Variable env : Externals.

Lemma catch_block_inflight key cx cz n s :
  let s' := catch_block env key cx cz n s in
  inflight s' = inflight s /\ chunkLoadQueue s' = chunkLoadQueue s.
Proof.
  unfold catch_block. destruct (_ && _); [by fields |].
  cbn zeta. destruct (negb _); unfold publish; by fields.
Qed.

Lemma attempt_failed_inflight r s :
  let s' := attempt_failed env r s in
  inflight s' = inflight s ∖ {[r_key r]} /\
  chunkLoadQueue s' = delete (r_key r) (chunkLoadQueue s).
Proof.
  unfold attempt_failed.
  destruct (catch_block_inflight (r_key r) (r_cx r) (r_cz r) (r_retryCount r) s)
    as [H1 H2].
  cbn zeta in *. fields. rewrite H1, H2. by split.
Qed.

Lemma resume_body_inflight r buf s :
  let s' := resume_body env r buf s in
  inflight s' = inflight s ∖ {[r_key r]} /\
  chunkLoadQueue s' = delete (r_key r) (chunkLoadQueue s).
Proof.
  unfold resume_body. cbn zeta.
  repeat (destruct (_ : bool); try apply attempt_failed_inflight);
    unfold publish; by fields.
Qed.

Lemma attemptLoad_inflight key cx cz n s :
  inflight (attemptLoad key cx cz n s) = inflight s.
Proof. unfold attemptLoad. destruct (disposed s); by fields. Qed.

Lemma gone_after_delete (key : string) (X : gset string)
    (Q : gmap string (Priority * Z)) :
  (key ∉ X ∖ {[key]}) /\ delete key Q !! key = None.
Proof.
  split; [| apply lookup_delete_eq].
  intros [_ H]%elem_of_difference. apply H, elem_of_singleton. reflexivity.
Qed.

(** An attempt that ends takes its key out of [inflight] and of
    [chunkLoadQueue]. *)
Lemma completed_attempt_clears s e s' r :
  step env s e = Some s' -> completed_attempt s e = Some r ->
  (r_key r ∉ inflight s') /\ chunkLoadQueue s' !! r_key r = None.
Proof.
  intros Hs Hc.
  destruct e as [cx cz | dt | tid | rid ok | rid | rid buf | rid |];
    cbn [step completed_attempt] in *; try discriminate.
  - destruct (find_timer tid s) as [t |]; [| discriminate].
    destruct (_ && _); [| discriminate]. injection Hs as <-.
    destruct (t_cb t) as [rid | | |]; try discriminate.
    cbn [run_callback].
    assert (Hf : find_request rid (clearTimeout tid s) = Some r) by exact Hc.
    rewrite Hf.
    destruct (attempt_failed_inflight r (drop_request rid (clearTimeout tid s)))
      as [-> ->].
    apply gone_after_delete.
  - destruct ok; [discriminate |]. rewrite Hc in Hs.
    destruct (r_phase r); [| discriminate]. injection Hs as <-.
    unfold resume_fetch. cbn [negb].
    destruct (attempt_failed_inflight r
                (clearTimeout (r_timeoutId r) (drop_request rid s))) as [-> ->].
    apply gone_after_delete.
  - rewrite Hc in Hs. destruct (r_phase r); [| discriminate]. injection Hs as <-.
    destruct (attempt_failed_inflight r (drop_request rid s)) as [-> ->].
    apply gone_after_delete.
  - rewrite Hc in Hs. destruct (r_phase r); [discriminate |]. injection Hs as <-.
    destruct (resume_body_inflight r buf (drop_request rid s)) as [-> ->].
    apply gone_after_delete.
  - rewrite Hc in Hs. destruct (r_phase r); [discriminate |]. injection Hs as <-.
    destruct (attempt_failed_inflight r (drop_request rid s)) as [-> ->].
    apply gone_after_delete.
Qed.

(** A failed attempt that has retries left sets the retry timer, with the
    delay [1000 * 2^retryCount], and leaves with its key out of
    [inflight]. *)
Lemma failed_attempt_sets_retry r s :
  disposed s = false -> r_retryCount r < maxRetries ->
  let s' := attempt_failed env r s in
  timers s' =
    timers s ++ [{| t_id := next_id s;
                    t_due := now s + baseRetryDelay * 2 ^ r_retryCount r;
                    t_cb := CbRetry (r_key r) (r_cx r) (r_cz r) (r_retryCount r) |}] /\
  (r_key r ∉ inflight s') /\ chunkLoadQueue s' !! r_key r = None.
Proof.
  intros Hd Hn. cbn zeta.
  destruct (attempt_failed_inflight r s) as [H1 H2]. cbn zeta in *.
  rewrite H1, H2. split; [| apply gone_after_delete].
  unfold attempt_failed, catch_block.
  apply Z.ltb_lt in Hn. rewrite Hn, Hd. cbn [negb andb]. by fields.
Qed.

(** The retry timer firing on the state that the failed attempt left:
    nothing happens. *)
Lemma retry_after_failure_is_dropped r s :
  run_callback env (CbRetry (r_key r) (r_cx r) (r_cz r) (r_retryCount r))
    (attempt_failed env r s) = attempt_failed env r s.
Proof.
  cbn [run_callback].
  destruct (attempt_failed_inflight r s) as [H1 _]. cbn zeta in H1.
  rewrite H1, bool_decide_eq_false_2, andb_false_r;
    [reflexivity | apply (gone_after_delete _ _ ∅)].
Qed.

(** Only [loadChunkAt], run by a load timer, puts a key into [inflight]. *)
Lemma inflight_grows_by_load s e s' key :
  step env s e = Some s' -> key ∈ inflight s' -> key ∉ inflight s ->
  exists tid t x z priority,
    e = EFire tid /\ find_timer tid s = Some t /\
    t_cb t = CbLoad x z priority /\ Key.keyOf x z = key /\
    disposed s = false /\ map_has key (loaded s) = false.
Proof.
  intros Hs Hin Hout.
  destruct e as [cx cz | dt | tid | rid ok | rid | rid buf | rid |];
    cbn [step] in Hs.
  - injection Hs as <-.
    destruct (ensureChunksAround_frame cx cz s) as (_ & H & _).
    cbn zeta in H. rewrite H in Hin. contradiction.
  - destruct (0 <=? dt); [| discriminate]. injection Hs as <-. contradiction.
  - destruct (find_timer tid s) as [t |] eqn:Ht; [| discriminate].
    destruct (_ && _); [| discriminate]. injection Hs as <-.
    destruct (t_cb t) as [rid | k cx cz n | x z p | k] eqn:Hcb;
      cbn [run_callback] in Hin.
    + destruct (find_request rid (clearTimeout tid s)) as [r |];
        [| contradiction].
      destruct (attempt_failed_inflight r (drop_request rid (clearTimeout tid s)))
        as [H _]. cbn zeta in H. rewrite H in Hin.
      apply elem_of_difference in Hin as [Hin _]. contradiction.
    + destruct (_ && _); [| contradiction].
      rewrite attemptLoad_inflight in Hin. contradiction.
    + destruct (negb (disposed (clearTimeout tid s))) eqn:Hd; [| contradiction].
      unfold loadChunkAt in Hin. cbn zeta in Hin.
      destruct (map_has _ _ || _ || _) eqn:Ho; [contradiction |].
      apply orb_false_iff in Ho as [[Hl _]%orb_false_iff _].
      rewrite attemptLoad_inflight in Hin. fields.
      apply elem_of_union in Hin as [Hin%elem_of_singleton | Hin];
        [subst key | contradiction].
      exists tid, t, x, z, p. apply negb_true_iff in Hd. auto 10.
    + destruct (map_get k (loaded (clearTimeout tid s))); contradiction.
  - destruct (find_request rid s) as [r |]; [| discriminate].
    destruct (r_phase r); [| discriminate]. injection Hs as <-.
    unfold resume_fetch in Hin. cbn zeta in Hin. destruct (negb ok).
    + destruct (attempt_failed_inflight r
                  (clearTimeout (r_timeoutId r) (drop_request rid s))) as [H _].
      cbn zeta in H. rewrite H in Hin.
      apply elem_of_difference in Hin as [Hin _]. contradiction.
    + contradiction.
  - destruct (find_request rid s) as [r |]; [| discriminate].
    destruct (r_phase r); [| discriminate]. injection Hs as <-.
    destruct (attempt_failed_inflight r (drop_request rid s)) as [H _].
    cbn zeta in H. rewrite H in Hin.
      apply elem_of_difference in Hin as [Hin _]. contradiction.
  - destruct (find_request rid s) as [r |]; [| discriminate].
    destruct (r_phase r); [discriminate |]. injection Hs as <-.
    destruct (resume_body_inflight r buf (drop_request rid s)) as [H _].
    cbn zeta in H. rewrite H in Hin.
      apply elem_of_difference in Hin as [Hin _]. contradiction.
  - destruct (find_request rid s) as [r |]; [| discriminate].
    destruct (r_phase r); [discriminate |]. injection Hs as <-.
    destruct (attempt_failed_inflight r (drop_request rid s)) as [H _].
    cbn zeta in H. rewrite H in Hin.
      apply elem_of_difference in Hin as [Hin _]. contradiction.
  - injection Hs as <-. unfold cleanup in Hin. cbn zeta in Hin.
    match type of Hin with context [fold_left ?f ?l ?s0] =>
      destruct (cleanup_effects_frame l s0) as (_ & G & _) end.
    cbn zeta in G. fields. rewrite G in Hin.
    by apply not_elem_of_empty in Hin.
Qed.
End InFlight.

(** ** Retries, overlapping loads, disposal *)

(** C1. A first attempt that fails sets the retry timer for 1 s later, but
    when that timer fires the key is not in [inflight] any more and the
    callback does nothing: the load of chunk (0, 0) ends after one attempt,
    with no second request, no call of the fallback generator and no chunk.
    It is so for every failed attempt: its retry callback, run on the state
    the attempt left, changes nothing. *)
Theorem failed_load_is_never_retried :
  load_summary "0,0" <$> run demo_env init first_failure =
    Some (1%nat, 0%nat, false, [],
          [{| t_id := 171; t_due := 1020; t_cb := CbRetry "0,0" 0 0 0 |}]) /\
  load_summary "0,0" <$> run demo_env init retry_alone =
    Some (1%nat, 0%nat, false, [], []) /\
  (forall env r s,
     run_callback env (CbRetry (r_key r) (r_cx r) (r_cz r) (r_retryCount r))
       (attempt_failed env r s) = attempt_failed env r s).
Proof.
  split; [vm_compute; reflexivity | split; [vm_compute; reflexivity |]].
  exact retry_after_failure_is_dropped.
Qed.

(** C2 (amended). When an invocation of [attemptLoad] ends, its key is out
    of [inflight] and of [chunkLoadQueue]; so it is when a failed attempt has
    set its retry timer and returned, at the beginning of the backoff. From
    then on the key is in [inflight] again only through [loadChunkAt], run
    by a load timer for the same key while the component is not disposed
    and the chunk not loaded, which may happen during the backoff.
    ([attemptLoad] is not entered when [disposed] is set: its two callers,
    [loadChunkAt] and the retry callback, do nothing then.) *)
Theorem attempt_end_clears_inflight env :
  (forall s e s' r,
     step env s e = Some s' -> completed_attempt s e = Some r ->
     (r_key r ∉ inflight s') /\ chunkLoadQueue s' !! r_key r = None) /\
  (forall r s,
     disposed s = false -> r_retryCount r < maxRetries ->
     let s' := attempt_failed env r s in
     timers s' =
       timers s ++ [{| t_id := next_id s;
                       t_due := now s + baseRetryDelay * 2 ^ r_retryCount r;
                       t_cb := CbRetry (r_key r) (r_cx r) (r_cz r) (r_retryCount r) |}] /\
     (r_key r ∉ inflight s') /\ chunkLoadQueue s' !! r_key r = None) /\
  (forall s e s' key,
     step env s e = Some s' -> key ∈ inflight s' -> key ∉ inflight s ->
     exists tid t x z priority,
       e = EFire tid /\ find_timer tid s = Some t /\
       t_cb t = CbLoad x z priority /\ Key.keyOf x z = key /\
       disposed s = false /\ map_has key (loaded s) = false) /\
  (forall s, disposed s = true ->
     (forall x z priority, loadChunkAt x z priority s = s) /\
     (forall key cx cz n, run_callback env (CbRetry key cx cz n) s = s)).
Proof.
  split; [exact (completed_attempt_clears env) |].
  split; [exact (failed_attempt_sets_retry env) |].
  split; [exact (inflight_grows_by_load env) |].
  intros s Hd. split.
  - intros x z priority. unfold loadChunkAt. cbn zeta.
    rewrite Hd, orb_true_r. reflexivity.
  - intros key cx cz n. cbn [run_callback]. rewrite Hd. reflexivity.
Qed.

Lemma attempt_end_clears_inflight_witness :
  let r := {| r_id := 0; r_key := "0,0"; r_cx := 0; r_cz := 0;
              r_retryCount := 2; r_phase := AwaitFetch; r_timeoutId := 1 |} in
  let s' := attempt_failed demo_env r (set_inflight {["0,0"]} init) in
  timers s' = [{| t_id := 0; t_due := 4000; t_cb := CbRetry "0,0" 0 0 2 |}] /\
  ("0,0" ∉ inflight s') /\ chunkLoadQueue s' !! "0,0" = None.
Proof.
  cbn zeta.
  apply (proj1 (proj2 (attempt_end_clears_inflight demo_env))
           {| r_id := 0; r_key := "0,0"; r_cx := 0; r_cz := 0;
              r_retryCount := 2; r_phase := AwaitFetch; r_timeoutId := 1 |}
           (set_inflight {["0,0"]} init)).
  - reflexivity.
  - reflexivity.
Defined.

Lemma key_in_flight_during_backoff :
  (fun s => (List.filter (is_retry_of "0,0") (timers s),
             bool_decide ("0,0" ∈ inflight s), now s))
    <$> run demo_env init camera_moves =
  Some ([{| t_id := 171; t_due := 1020; t_cb := CbRetry "0,0" 0 0 0 |}],
        true, 900).
Proof. vm_compute. reflexivity. Qed.

(** C3. The first load of chunk (0, 0) fails and waits for its retry timer;
    the camera moves, [loadChunkAt] starts a second load of (0, 0), and the
    retry timer of the first fires while the second is in flight: two
    attempts for the key "0,0" are in progress at once. *)
Theorem two_load_sequences_for_one_key :
  (fun s => map (fun r => (r_id r, r_retryCount r, r_phase r))
                (requests_of "0,0" s))
    <$> run demo_env init retry_joins =
  Some [(359%nat, 0, AwaitFetch); (367%nat, 1, AwaitFetch)].
Proof. vm_compute. reflexivity. Qed.




Lemma fetched_body_is_size_checked_witness :
  resume_body demo_env
    {| r_id := 0; r_key := "0,0"; r_cx := 0; r_cz := 0; r_retryCount := 0;
       r_phase := AwaitBody; r_timeoutId := 1 |} [x01; x01; x01] init =
  attempt_failed demo_env
    {| r_id := 0; r_key := "0,0"; r_cx := 0; r_cz := 0; r_retryCount := 0;
       r_phase := AwaitBody; r_timeoutId := 1 |} init /\
  (forall es s key p grid,
     run demo_env init es = Some s -> In (Build key p grid) (effects s) ->
     Z.of_nat (length grid) = 8).
Proof.
  split.
  - apply (proj1 (fetched_body_is_size_checked demo_env)).
    right. cbn. lia.
  - apply (proj2 (proj2 (fetched_body_is_size_checked demo_env))).
    + cbn. lia.
    + reflexivity.
Defined.

(** C6 (amended). The cleanup sets [disposed], empties [chunkLoadQueue],
    [inflight] and [loaded], and calls [disposeObject] on every loaded
    group. It leaves the pending timers and the requests in progress as
    they are: no timer is cleared and no request is aborted. *)
Theorem cleanup_leaves_timers_and_requests s :
  let s' := cleanup s in
  disposed s' = true /\ inflight s' = ∅ /\ chunkLoadQueue s' = ∅ /\
  loaded s' = [] /\
  effects s' = effects s ++ map (fun kg => DisposeObject (g_id (snd kg))) (loaded s) /\
  timers s' = timers s /\ requests s' = requests s /\
  worldGroup s' = worldGroup s.
Proof.
  unfold cleanup. cbn zeta.
  match goal with |- context [fold_left ?f ?l ?s0] =>
    destruct (cleanup_effects_frame l s0)
      as (_ & G2 & G3 & G4 & G5 & G6 & G7 & _ & _ & _ & G11) end.
  cbn zeta in *. fields. rewrite G2, G3, G4, G5, G6, G7, G11. by fields.
Qed.

Lemma cleanup_cancels_nothing :
  (fun s => (length (timers s), map r_id (requests s),
             bool_decide (inflight s = ∅), disposed s))
    <$> run demo_env init disposed_early =
  Some (169%nat, [169%nat], true, true) /\
  is_Some (run demo_env init (disposed_early ++ [EResponse 169 true])).
Proof.
  split; [vm_compute; reflexivity |].
  destruct (run demo_env init (disposed_early ++ [EResponse 169 true])) eqn:E;
    [eauto | vm_compute in E; discriminate E].
Qed.

(** * Further properties *)

(** ** [ensureChunksAround] as a whole *)

Section EnsureMore.
Variables (cx cz : Z) (s : State).

Lemma flat_map_length_le {A B} (f : A -> list B) (k : nat) (l : list A) :
  (forall a, (length (f a) <= k)%nat) ->
  (length (flat_map f l) <= k * length l)%nat.
Proof.
  intros Hf. induction l as [| a l IH]; cbn [flat_map length]; [lia |].
  rewrite length_app. specialize (Hf a). lia.
Qed.

Lemma chunksToLoad_length : (length (chunksToLoad cx cz s) <= 169)%nat.
Proof.
  unfold chunksToLoad. rewrite (Permutation_length (sort_by_priority_perm _)).
  unfold scan_window.
  assert (Hoff : length offsets = 13%nat) by (vm_compute; reflexivity).
  etransitivity; [apply (flat_map_length_le _ 13) |].
  - intros dz. etransitivity; [apply (flat_map_length_le _ 1) |].
    + intros dx. cbn zeta. destruct (_ || _); cbn [length]; lia.
    + rewrite Hoff. lia.
  - rewrite Hoff. lia.
Qed.

Lemma chunksToRemove_length :
  (length (chunksToRemove cx cz s) <= length (loaded s))%nat.
Proof.
  unfold chunksToRemove. rewrite length_map. apply List.filter_length_le.
Qed.

Lemma ensureChunksAround_next_id :
  next_id (ensureChunksAround cx cz s) =
  (next_id s + length (chunksToLoad cx cz s) + length (chunksToRemove cx cz s))%nat.
Proof.
  unfold ensureChunksAround. cbn zeta.
  set (cb := fun c => CbLoad (c_x c) (c_z c) (c_priority c)).
  destruct (stagger_frame cb 50 (chunksToLoad cx cz s) 0 s) as (H1 & _).
  destruct (stagger_timers cb 50 (chunksToLoad cx cz s) 0 s) as [_ Hn].
  cbn zeta in *.
  set (s1 := stagger cb 50 0 (chunksToLoad cx cz s) s) in *.
  destruct (stagger_timers CbPrune 10 (chunksToRemove cx cz s1) 0 s1) as [_ Gn].
  cbn zeta in Gn. rewrite Gn, Hn. unfold chunksToRemove. rewrite H1. reflexivity.
Qed.

(** The lists of [ensureChunksAround] are read off [loaded] and [inflight]
    only. *)
Lemma chunksToLoad_ext s' :
  loaded s' = loaded s -> inflight s' = inflight s ->
  chunksToLoad cx cz s' = chunksToLoad cx cz s.
Proof. intros H1 H2. unfold chunksToLoad, scan_window. rewrite H1, H2. reflexivity. Qed.

Lemma chunksToRemove_ext s' :
  loaded s' = loaded s -> chunksToRemove cx cz s' = chunksToRemove cx cz s.
Proof. intros H1. unfold chunksToRemove. rewrite H1. reflexivity. Qed.
(** Called again in a state with the same [loaded], [inflight] and clock,
    [ensureChunksAround] sets timers with the same callbacks and due times. *)
Lemma ensureChunksAround_again :
  let s1 := ensureChunksAround cx cz s in
  timers (ensureChunksAround cx cz s1) =
    timers s ++ (load_timers cx cz s ++ prune_timers cx cz s)
             ++ (load_timers cx cz s1 ++ prune_timers cx cz s1) /\
  map timer_job (load_timers cx cz s1 ++ prune_timers cx cz s1) =
  map timer_job (load_timers cx cz s ++ prune_timers cx cz s).
Proof.
  cbn zeta.
  destruct (ensureChunksAround_frame cx cz s) as (H1 & H2 & _ & _ & _ & _ & H7 & _).
  cbn zeta in *. split.
  - rewrite (ensureChunksAround_timers cx cz (ensureChunksAround cx cz s)).
    rewrite (ensureChunksAround_timers cx cz s), <- !app_assoc. reflexivity.
  - unfold load_timers, prune_timers.
    rewrite (chunksToLoad_ext _ H1 H2), (chunksToRemove_ext _ H1), H7.
    rewrite !map_app. f_equal; apply list_eq; intros i;
      rewrite !list_lookup_fmap, !list_lookup_imap;
      destruct (_ !! i); reflexivity.
Qed.

Lemma flat_map_length_const {A B} (f : A -> list B) (k : nat) (l : list A) :
  (forall a, length (f a) = k) -> length (flat_map f l) = (k * length l)%nat.
Proof.
  intros Hf. induction l as [| a l IH]; cbn [flat_map length]; [lia |].
  rewrite length_app, (Hf a). lia.
Qed.

(** With nothing loaded or in flight, the whole window is to be loaded. *)
Lemma chunksToLoad_length_empty :
  loaded s = [] -> inflight s = ∅ -> length (chunksToLoad cx cz s) = 169%nat.
Proof.
  intros Hl Hi. unfold chunksToLoad.
  rewrite (Permutation_length (sort_by_priority_perm _)). unfold scan_window.
  assert (Hoff : length offsets = 13%nat) by (vm_compute; reflexivity).
  rewrite (flat_map_length_const _ 13), Hoff; [reflexivity |].
  intros dz. rewrite (flat_map_length_const _ 1), Hoff; [reflexivity |].
  intros dx. cbn zeta. rewrite Hl, Hi.
  rewrite bool_decide_eq_false_2 by apply not_elem_of_empty. reflexivity.
Qed.
End EnsureMore.



(** X2. [ensureChunksAround] only sets timers: it loads and removes nothing
    itself, issues no request and leaves [inflight], the queue and the scene
    alone. It sets at most 169 load timers and at most one prune timer for
    each loaded record. *)
Theorem ensure_only_sets_timers cx cz s :
  let s' := ensureChunksAround cx cz s in
  loaded s' = loaded s /\ inflight s' = inflight s /\
  disposed s' = disposed s /\ chunkLoadQueue s' = chunkLoadQueue s /\
  worldGroup s' = worldGroup s /\ requests s' = requests s /\
  now s' = now s /\ randoms s' = randoms s /\ effects s' = effects s /\
  (exists new_timers,
     timers s' = timers s ++ new_timers /\
     length new_timers =
       (length (chunksToLoad cx cz s) + length (chunksToRemove cx cz s))%nat) /\
  (length (chunksToLoad cx cz s) <= 169)%nat /\
  (length (chunksToRemove cx cz s) <= length (loaded s))%nat.
Proof.
  cbn zeta.
  destruct (ensureChunksAround_frame cx cz s)
    as (H1 & H2 & H3 & H4 & H5 & H6 & H7 & H8 & H9).
  repeat (split; [assumption |]).
  split; [| split; [apply chunksToLoad_length | apply chunksToRemove_length]].
  exists (load_timers cx cz s ++ prune_timers cx cz s).
  split; [apply ensureChunksAround_timers |].
  unfold load_timers, prune_timers. rewrite length_app, !length_imap. reflexivity.
Qed.




(** ** Steps by kind *)

Section Transitions.
Variable env : Externals.

Lemma find_request_Some rid s r :
  find_request rid s = Some r -> In r (requests s) /\ r_id r = rid.
Proof.
  unfold find_request. intros H. apply find_some in H as [Hin Hid].
  apply Nat.eqb_eq in Hid. auto.
Qed.

Lemma find_request_None rid s r :
  find_request rid s = None -> In r (requests s) -> r_id r <> rid.
Proof.
  unfold find_request. intros H Hin E.
  apply (find_none _ _ H) in Hin. apply Nat.eqb_neq in Hin. contradiction.
Qed.

Lemma find_timer_Some tid s t :
  find_timer tid s = Some t -> In t (timers s) /\ t_id t = tid.
Proof.
  unfold find_timer. intros H. apply find_some in H as [Hin Hid].
  apply Nat.eqb_eq in Hid. auto.
Qed.

(** The three ways a failing attempt ends: a retry timer, the fallback chunk,
    or, once disposed, a generated grid that is thrown away. *)
Lemma attempt_failed_cases r s :
  attempt_failed env r s =
  finally_block (r_key r)
    (if (r_retryCount r <? maxRetries) && negb (disposed s)
     then setTimeout (CbRetry (r_key r) (r_cx r) (r_cz r) (r_retryCount r))
            (baseRetryDelay * 2 ^ r_retryCount r) s
     else
       let s0 := set_randoms (S (randoms s)) (emit (Generate (r_key r)) s) in
       if disposed s then s0
       else publish env (r_key r) (r_cx r) (r_cz r) Local
              (local_grid env (randoms s)) s0).
Proof.
  unfold attempt_failed, catch_block.
  destruct (_ && _); [reflexivity |]. cbn zeta.
  change (disposed (set_randoms (S (randoms (emit (Generate (r_key r)) s)))
                      (emit (Generate (r_key r)) s))) with (disposed s).
  destruct (disposed s); reflexivity.
Qed.

Lemma step_transition s e s' : step env s e = Some s' -> Transition env s s'.
Proof.
  intros Hs.
  destruct e as [cx cz | dt | tid | rid ok | rid | rid buf | rid |];
    cbn [step] in Hs.
  - injection Hs as <-. constructor.
  - destruct (0 <=? dt) eqn:E; [| discriminate]. injection Hs as <-.
    constructor. by apply Z.leb_le.
  - destruct (find_timer tid s) as [t |] eqn:Ht; [| discriminate].
    destruct (_ && _); [| discriminate]. injection Hs as <-.
    apply find_timer_Some in Ht as [Hin <-].
    destruct (t_cb t) as [rid | key cx cz n | x z p | key] eqn:Hcb;
      cbn [run_callback].
    + destruct (find_request rid (clearTimeout (t_id t) s)) as [r |] eqn:Hr.
      * apply find_request_Some in Hr as [Hreq <-].
        apply (T_fail env s r (clearTimeout (t_id t) s)); [exact Hreq |].
        right. right. eauto.
      * apply T_idle; [exact Hin |]. intros r Hreq E. rewrite Hcb in E.
        injection E as ->. by apply (find_request_None _ _ r Hr Hreq).
    + destruct (negb (disposed (clearTimeout (t_id t) s))) eqn:Hd; cbn [andb].
      * destruct (bool_decide _) eqn:Hk.
        -- apply bool_decide_eq_true in Hk. apply negb_true_iff in Hd.
           exact (T_retry env s t key cx cz n Hin Hcb Hd Hk).
        -- apply T_idle; [exact Hin |]. intros r _. rewrite Hcb. discriminate.
      * apply T_idle; [exact Hin |]. intros r _. rewrite Hcb. discriminate.
    + assert (Hidle : Transition env s (clearTimeout (t_id t) s)).
      { apply T_idle; [exact Hin |]. intros r _. rewrite Hcb. discriminate. }
      destruct (negb (disposed (clearTimeout (t_id t) s))) eqn:Hd;
        [| exact Hidle].
      apply negb_true_iff in Hd. change (disposed s = false) in Hd.
      unfold loadChunkAt. cbn zeta.
      change (disposed (clearTimeout (t_id t) s)) with (disposed s).
      change (loaded (clearTimeout (t_id t) s)) with (loaded s).
      change (inflight (clearTimeout (t_id t) s)) with (inflight s) at 1.
      rewrite Hd, orb_false_r.
      destruct (map_has _ _) eqn:Hl; [exact Hidle |].
      destruct (bool_decide (Key.keyOf x z ∈ inflight s)) eqn:Hk;
        [exact Hidle |].
      cbn [orb]. apply bool_decide_eq_false in Hk.
      exact (T_load env s t x z p Hin Hcb Hd Hl Hk).
    + destruct (map_get key (loaded (clearTimeout (t_id t) s))) as [g |] eqn:Hg.
      * exact (T_prune env s t key g Hin Hcb Hg).
      * apply T_idle; [exact Hin |]. intros r _. rewrite Hcb. discriminate.
  - destruct (find_request rid s) as [r |] eqn:Hr; [| discriminate].
    apply find_request_Some in Hr as [Hreq <-].
    destruct (r_phase r) eqn:Hp; [| discriminate]. injection Hs as <-.
    unfold resume_fetch. cbn zeta. destruct ok; cbn [negb].
    + exact (T_response env s r Hreq Hp).
    + apply (T_fail env s r (clearTimeout (r_timeoutId r) s)); [exact Hreq |].
      right. left. reflexivity.
  - destruct (find_request rid s) as [r |] eqn:Hr; [| discriminate].
    apply find_request_Some in Hr as [Hreq <-].
    destruct (r_phase r); [| discriminate]. injection Hs as <-.
    apply (T_fail env s r s); [exact Hreq | by left].
  - destruct (find_request rid s) as [r |] eqn:Hr; [| discriminate].
    apply find_request_Some in Hr as [Hreq <-].
    destruct (r_phase r) eqn:Hp; [discriminate |]. injection Hs as <-.
    exact (T_body env s r buf Hreq Hp).
  - destruct (find_request rid s) as [r |] eqn:Hr; [| discriminate].
    apply find_request_Some in Hr as [Hreq <-].
    destruct (r_phase r); [discriminate |]. injection Hs as <-.
    apply (T_fail env s r s); [exact Hreq | by left].
  - injection Hs as <-. constructor.
Qed.
End Transitions.

(** ** Ids *)

Section ListFacts.
Context {A B : Type} (f : A -> B).

Lemma NoDup_map_filter (p : A -> bool) (l : list A) :
  NoDup (map f l) -> NoDup (map f (List.filter p l)).
Proof.
  induction l as [| a l IH]; cbn [List.filter map]; [auto |].
  intros [Ha Hl]%NoDup_cons. destruct (p a); cbn [map]; [| auto].
  apply NoDup_cons. split; [| auto].
  intros Hin%list_elem_of_In%in_map_iff. destruct Hin as (x & Hx & Hin).
  apply List.filter_In in Hin as [Hin _].
  apply Ha, list_elem_of_In, in_map_iff. eauto.
Qed.

Lemma NoDup_map_snoc (l : list A) (a : A) :
  NoDup (map f l) -> (forall x, In x l -> f x <> f a) ->
  NoDup (map f (l ++ [a])).
Proof.
  intros Hl Ha. rewrite map_app. apply NoDup_app. repeat split; [exact Hl | |].
  - intros b Hb%list_elem_of_In%in_map_iff Hb'%list_elem_of_In.
    destruct Hb as (x & <- & Hx). cbn in Hb'. destruct Hb' as [E | []].
    by apply (Ha x Hx).
  - cbn. apply NoDup_singleton.
Qed.

Lemma NoDup_map_inj_on (l : list A) (x y : A) :
  NoDup (map f l) -> In x l -> In y l -> f x = f y -> x = y.
Proof.
  induction l as [| a l IH]; cbn [map]; [intros _ [] |].
  intros [Ha Hl]%NoDup_cons [-> | Hx] [-> | Hy] E; auto.
  - exfalso. apply Ha, list_elem_of_In, in_map_iff. eauto.
  - exfalso. apply Ha, list_elem_of_In, in_map_iff. eauto.
Qed.
End ListFacts.

Section Ids.
Variable env : Externals.

Lemma ids_ok_setTimeout cb delay s : ids_ok s -> ids_ok (setTimeout cb delay s).
Proof.
  intros (H1 & H2 & H3 & H4 & H5 & H6). unfold ids_ok. fields.
  repeat split; try assumption.
  - intros t Ht. apply in_app_iff in Ht as [Ht | [<- | []]].
    + specialize (H1 t Ht). lia.
    + cbn. lia.
  - intros r Hr. specialize (H2 r Hr). lia.
  - intros g Hg. specialize (H3 g Hg). lia.
  - apply NoDup_map_snoc; [exact H4 |]. intros t Ht. specialize (H1 t Ht).
    cbn. lia.
Qed.

Lemma ids_ok_clearTimeout tid s : ids_ok s -> ids_ok (clearTimeout tid s).
Proof.
  intros (H1 & H2 & H3 & H4 & H5 & H6). unfold ids_ok. fields.
  repeat split; try assumption.
  - intros t [Ht _]%List.filter_In. auto.
  - by apply NoDup_map_filter.
Qed.

Lemma ids_ok_drop_request rid s : ids_ok s -> ids_ok (drop_request rid s).
Proof.
  intros (H1 & H2 & H3 & H4 & H5 & H6). unfold ids_ok. fields.
  repeat split; try assumption.
  - intros r [Hr _]%List.filter_In. auto.
  - by apply NoDup_map_filter.
Qed.

Lemma ids_ok_stagger {A} (cb : A -> Callback) gap l : forall index s,
  ids_ok s -> ids_ok (stagger cb gap index l s).
Proof.
  induction l as [| a l IH]; intros index s H; cbn [stagger]; [exact H |].
  apply IH, ids_ok_setTimeout, H.
Qed.

(** Updates that touch no timer, attempt, group or id. *)
Lemma ids_ok_same s s' :
  timers s' = timers s -> requests s' = requests s ->
  worldGroup s' = worldGroup s -> next_id s' = next_id s ->
  ids_ok s -> ids_ok s'.
Proof. unfold ids_ok. intros -> -> -> ->. auto. Qed.

Lemma ids_ok_finally_block key s : ids_ok s -> ids_ok (finally_block key s).
Proof. by apply ids_ok_same. Qed.

Lemma ids_ok_publish key cx cz p grid s :
  ids_ok s -> ids_ok (publish env key cx cz p grid s).
Proof.
  intros (H1 & H2 & H3 & H4 & H5 & H6). unfold ids_ok, publish. fields.
  repeat split; try assumption.
  - intros t Ht. specialize (H1 t Ht). lia.
  - intros r Hr. specialize (H2 r Hr). lia.
  - intros g Hg. apply in_app_iff in Hg as [Hg | [<- | []]].
    + specialize (H3 g Hg). lia.
    + cbn. lia.
  - apply NoDup_map_snoc; [exact H6 |]. intros g Hg. specialize (H3 g Hg).
    cbn. lia.
Qed.

Lemma ids_ok_attempt_failed r s : ids_ok s -> ids_ok (attempt_failed env r s).
Proof.
  intros H. unfold attempt_failed, catch_block. apply ids_ok_finally_block.
  destruct (_ && _); [by apply ids_ok_setTimeout |].
  cbn zeta. destruct (negb _).
  - apply ids_ok_publish. revert H. by apply ids_ok_same.
  - revert H. by apply ids_ok_same.
Qed.

Lemma ids_ok_resume_body r buf s : ids_ok s -> ids_ok (resume_body env r buf s).
Proof.
  intros H. unfold resume_body. cbn zeta.
  repeat (destruct (_ : bool); try by apply ids_ok_attempt_failed).
  - by apply ids_ok_finally_block.
  - by apply ids_ok_finally_block, ids_ok_publish.
Qed.

Lemma ids_ok_attemptLoad key cx cz n s :
  ids_ok s -> ids_ok (attemptLoad key cx cz n s).
Proof.
  intros (H1 & H2 & H3 & H4 & H5 & H6). unfold attemptLoad.
  destruct (disposed s); [by repeat split |].
  unfold ids_ok. fields. repeat split; try assumption.
  - intros t Ht. apply in_app_iff in Ht as [Ht | [<- | []]].
    + specialize (H1 t Ht). lia.
    + cbn. lia.
  - intros r Hr. apply in_app_iff in Hr as [Hr | [<- | []]].
    + specialize (H2 r Hr). lia.
    + cbn. lia.
  - intros g Hg. specialize (H3 g Hg). lia.
  - apply NoDup_map_snoc; [exact H4 |]. intros t Ht. specialize (H1 t Ht).
    cbn. lia.
  - apply NoDup_map_snoc; [exact H5 |]. intros r Hr. specialize (H2 r Hr).
    cbn. lia.
Qed.

Lemma ids_ok_cleanup s : ids_ok s -> ids_ok (cleanup s).
Proof.
  unfold cleanup. cbn zeta.
  match goal with |- context [fold_left ?f ?l ?s0] =>
    destruct (cleanup_effects_frame l s0)
      as (_ & _ & _ & _ & G5 & G6 & G7 & _ & G9 & _) end.
  cbn zeta in *. apply ids_ok_same; fields; assumption.
Qed.

Lemma ids_ok_transition s s' : ids_ok s -> Transition env s s' -> ids_ok s'.
Proof.
  intros H Ht. destruct Ht as
    [cx cz | dt Hdt | t Hin Hna | r s1 Hr Hc | r Hr Hp | r buf Hr Hp
     | t key cx cz n Hin Hcb Hd Hk | t x z p Hin Hcb Hd Hl Hk
     | t key g Hin Hcb Hg |].
  - unfold ensureChunksAround. cbn zeta. by apply ids_ok_stagger, ids_ok_stagger.
  - revert H. by apply ids_ok_same.
  - by apply ids_ok_clearTimeout.
  - apply ids_ok_attempt_failed, ids_ok_drop_request.
    destruct Hc as [-> | [-> | (t & _ & _ & ->)]];
      [exact H | by apply ids_ok_clearTimeout | by apply ids_ok_clearTimeout].
  - cbn zeta.
    pose proof (ids_ok_clearTimeout (r_timeoutId r) _
                  (ids_ok_drop_request (r_id r) s H)) as (H1 & H2 & H3 & H4 & H5 & H6).
    destruct H as (_ & G2 & _).
    unfold ids_ok. fields. repeat split; try assumption.
    + intros r' Hr'. apply in_app_iff in Hr' as [Hr' | [<- | []]]; [auto |].
      cbn. auto.
    + apply NoDup_map_snoc; [exact H5 |].
      intros r' [_ Hne]%List.filter_In. cbn.
      apply negb_true_iff, Nat.eqb_neq in Hne. exact Hne.
  - by apply ids_ok_resume_body, ids_ok_drop_request.
  - by apply ids_ok_attemptLoad, ids_ok_clearTimeout.
  - cbn zeta. apply ids_ok_attemptLoad.
    generalize (ids_ok_clearTimeout (t_id t) s H). by apply ids_ok_same.
  - cbn zeta.
    pose proof (ids_ok_clearTimeout (t_id t) s H) as (H1 & H2 & H3 & H4 & H5 & H6).
    unfold ids_ok. fields. repeat split; try assumption.
    + intros g' [Hg' _]%List.filter_In. auto.
    + by apply NoDup_map_filter.
  - by apply ids_ok_cleanup.
Qed.

Lemma ids_ok_init : ids_ok init.
Proof. repeat split; try (intros ? []); constructor. Qed.
End Ids.

(** ** Attempts and their timers *)

Section Attempts.
Variable env : Externals.

Lemma attempts_ok_same s s' :
  timers s' = timers s -> requests s' = requests s ->
  attempts_ok s -> attempts_ok s'.
Proof.
  unfold attempts_ok, abort_timer_ok. intros -> ->. auto.
Qed.

(** A timer goes that is not the abort timer of an attempt in progress. *)
Lemma attempts_ok_clear_other t s :
  ids_ok s -> attempts_ok s -> In t (timers s) ->
  (forall r, In r (requests s) -> t_cb t <> CbAbort (r_id r)) ->
  attempts_ok (clearTimeout (t_id t) s).
Proof.
  intros (_ & _ & _ & Hnd & _) [Hr Ht] Hin Hna. split; fields.
  - intros r Hrin. destruct (Hr r Hrin) as [Hok Hab]. split; [exact Hok |].
    unfold abort_timer_ok in *. fields. destruct (r_phase r).
    + destruct Hab as (t' & Hin' & Hid & Hcb). exists t'.
      split; [| auto]. apply List.filter_In. split; [exact Hin' |].
      apply negb_true_iff, Nat.eqb_neq. intros E.
      assert (t' = t) as -> by (apply (NoDup_map_inj_on t_id (timers s)); auto).
      by apply (Hna r Hrin).
    + intros t' [Hin' _]%List.filter_In. auto.
  - intros t' [Hin' _]%List.filter_In. auto.
Qed.

(** An attempt ends: it leaves the attempts in progress, with its abort
    timer when that was cleared or has fired. *)
Lemma attempts_ok_drop r s s1 :
  ids_ok s -> attempts_ok s -> In r (requests s) -> timer_cleared s r s1 ->
  attempts_ok (drop_request (r_id r) s1).
Proof.
  intros (_ & _ & _ & Hndt & Hndr & _) [Hr Ht] Hin Hc.
  assert (Hs1 : requests s1 = requests s /\
                ((timers s1 = timers s) \/
                 timers s1 = List.filter (fun t => negb (t_id t =? S (r_id r))%nat)
                                         (timers s))).
  { destruct (Hr r Hin) as [(Hto & _) _].
    destruct Hc as [-> | [-> | (t & Htin & Hcb & ->)]]; fields.
    - auto.
    - rewrite Hto. auto.
    - specialize (Ht t Htin). unfold callback_ok in Ht. rewrite Hcb in Ht.
      rewrite Ht. auto. }
  destruct Hs1 as [Hreq Htim]. split; fields; [rewrite Hreq |].
  - intros r' [Hrin Hne]%List.filter_In.
    apply negb_true_iff, Nat.eqb_neq in Hne.
    destruct (Hr r' Hrin) as [Hok Hab]. split; [exact Hok |].
    unfold abort_timer_ok in *. fields.
    destruct (r_phase r'), Htim as [-> | ->]; try exact Hab.
    + destruct Hab as (t' & Hin' & Hid & Hcb). exists t'.
      split; [| auto]. apply List.filter_In. split; [exact Hin' |].
      apply negb_true_iff, Nat.eqb_neq. lia.
    + intros t' [Hin' _]%List.filter_In. auto.
  - destruct Htim as [-> | ->]; [exact Ht |].
    intros t' [Hin' _]%List.filter_In. auto.
Qed.

(** A timer is set. *)
Lemma attempts_ok_setTimeout cb delay s :
  ids_ok s -> attempts_ok s ->
  callback_ok {| t_id := next_id s; t_due := now s + delay; t_cb := cb |} ->
  attempts_ok (setTimeout cb delay s).
Proof.
  intros (_ & Hb & _) [Hr Ht] Hcb. split; fields.
  - intros r Hrin. destruct (Hr r Hrin) as [Hok Hab]. split; [exact Hok |].
    unfold abort_timer_ok in *. fields. destruct (r_phase r).
    + destruct Hab as (t' & Hin' & Hid & Hcb'). exists t'.
      split; [apply in_app_iff; by left | auto].
    + intros t' [Hin' | [<- | []]]%in_app_iff; [auto |].
      cbn. specialize (Hb r Hrin). lia.
  - intros t' [Hin' | [<- | []]]%in_app_iff; auto.
Qed.

Lemma attempts_ok_stagger {A} (cb : A -> Callback) gap l : forall index s,
  (forall a, match cb a with CbLoad _ _ _ | CbPrune _ => True | _ => False end) ->
  ids_ok s -> attempts_ok s -> attempts_ok (stagger cb gap index l s).
Proof.
  induction l as [| a l IH]; intros index s Hcb Hi H; cbn [stagger]; [exact H |].
  apply IH; [exact Hcb | by apply ids_ok_setTimeout |].
  apply attempts_ok_setTimeout; [exact Hi | exact H |].
  unfold callback_ok. cbn. specialize (Hcb a). by destruct (cb a).
Qed.

Lemma attempts_ok_attempt_failed r s :
  request_ok r -> ids_ok s -> attempts_ok s ->
  attempts_ok (attempt_failed env r s).
Proof.
  intros (_ & Hkey & Hn) Hi H. rewrite attempt_failed_cases.
  match goal with |- attempts_ok (finally_block _ ?s0) =>
    apply (attempts_ok_same s0); [reflexivity | reflexivity |] end.
  destruct (r_retryCount r <? maxRetries) eqn:E; cbn [andb].
  - destruct (disposed s); cbn [negb].
    + revert H. by apply attempts_ok_same.
    + apply attempts_ok_setTimeout; [exact Hi | exact H |].
      unfold callback_ok. cbn. apply Z.ltb_lt in E. split; [exact Hkey | lia].
  - revert H. apply attempts_ok_same; cbn zeta;
      destruct (disposed s); unfold publish; by fields.
Qed.

Lemma attempts_ok_resume_body r buf s :
  request_ok r -> ids_ok s -> attempts_ok s ->
  attempts_ok (resume_body env r buf s).
Proof.
  intros Hr Hi H. unfold resume_body. cbn zeta.
  repeat (destruct (_ : bool); try by apply attempts_ok_attempt_failed);
    revert H; apply attempts_ok_same; unfold publish; by fields.
Qed.

Lemma attempts_ok_attemptLoad key cx cz n s :
  key = Key.keyOf cx cz -> 0 <= n <= maxRetries ->
  ids_ok s -> attempts_ok s -> attempts_ok (attemptLoad key cx cz n s).
Proof.
  intros Hkey Hn (_ & Hb & _) [Hr Ht]. unfold attemptLoad.
  destruct (disposed s); [by split |]. split; fields.
  - intros r [Hrin | [<- | []]]%in_app_iff.
    + destruct (Hr r Hrin) as [Hok Hab]. split; [exact Hok |].
      unfold abort_timer_ok in *. fields. destruct (r_phase r).
      * destruct Hab as (t' & Hin' & Hid & Hcb'). exists t'.
        split; [apply in_app_iff; by left | auto].
      * intros t' [Hin' | [<- | []]]%in_app_iff; [auto |].
        cbn. specialize (Hb r Hrin). lia.
    + split; [unfold request_ok; cbn; repeat split; try assumption; lia |].
      unfold abort_timer_ok. cbn.
      eexists. split; [apply in_app_iff; right; left; reflexivity |].
      by split.
  - intros t' [Hin' | [<- | []]]%in_app_iff; [auto | reflexivity].
Qed.

Lemma attempts_ok_transition s s' :
  ids_ok s -> attempts_ok s -> Transition env s s' -> attempts_ok s'.
Proof.
  intros Hi H Ht. destruct Ht as
    [cx cz | dt Hdt | t Hin Hna | r s1 Hr Hc | r Hr Hp | r buf Hr Hp
     | t key cx cz n Hin Hcb Hd Hk | t x z p Hin Hcb Hd Hl Hk
     | t key g Hin Hcb Hg |].
  - unfold ensureChunksAround. cbn zeta.
    apply attempts_ok_stagger; [done | by apply ids_ok_stagger |].
    by apply attempts_ok_stagger.
  - revert H. by apply attempts_ok_same.
  - by apply attempts_ok_clear_other.
  - pose proof (proj1 (proj1 H r Hr)) as Hok.
    apply attempts_ok_attempt_failed; [exact Hok | | by eapply attempts_ok_drop].
    apply ids_ok_drop_request.
    destruct Hc as [-> | [-> | (t & _ & _ & ->)]];
      [exact Hi | by apply ids_ok_clearTimeout | by apply ids_ok_clearTimeout].
  - cbn zeta. destruct (proj1 H r Hr) as [Hok _].
    assert (H0 : attempts_ok (drop_request (r_id r) (clearTimeout (r_timeoutId r) s))).
    { apply (attempts_ok_drop r s); auto. right. by left. }
    destruct H0 as [Hr0 Ht0]. split; fields.
    + intros r' [Hrin | [<- | []]]%in_app_iff.
      * destruct (Hr0 r' Hrin) as [Hok' Hab']. split; [exact Hok' |].
        exact Hab'.
      * split; [exact Hok |]. unfold abort_timer_ok. cbn.
        intros t' [_ Hne]%List.filter_In.
        apply negb_true_iff, Nat.eqb_neq in Hne.
        destruct Hok as [<- _]. exact Hne.
    + exact Ht0.
  - destruct (proj1 H r Hr) as [Hok _].
    apply attempts_ok_resume_body; [exact Hok | by apply ids_ok_drop_request |].
    apply (attempts_ok_drop r s); auto. by left.
  - pose proof (proj2 H t Hin) as Hcbok. unfold callback_ok in Hcbok.
    rewrite Hcb in Hcbok. destruct Hcbok as [Hkey Hn].
    apply attempts_ok_attemptLoad;
      [exact Hkey | lia | by apply ids_ok_clearTimeout |].
    apply attempts_ok_clear_other; auto. intros r _. rewrite Hcb. discriminate.
  - cbn zeta.
    assert (H0 : attempts_ok (clearTimeout (t_id t) s)).
    { apply attempts_ok_clear_other; auto. intros r _. rewrite Hcb. discriminate. }
    apply attempts_ok_attemptLoad; [reflexivity | unfold maxRetries; lia | |].
    + generalize (ids_ok_clearTimeout (t_id t) s Hi). by apply ids_ok_same.
    + revert H0. by apply attempts_ok_same.
  - cbn zeta.
    assert (H0 : attempts_ok (clearTimeout (t_id t) s)).
    { apply attempts_ok_clear_other; auto. intros r _. rewrite Hcb. discriminate. }
    revert H0. by apply attempts_ok_same.
  - unfold cleanup. cbn zeta.
    match goal with |- context [fold_left ?f ?l ?s0] =>
      destruct (cleanup_effects_frame l s0)
        as (_ & _ & _ & _ & _ & G6 & G7 & _) end.
    cbn zeta in *. revert H. apply attempts_ok_same; fields; assumption.
Qed.

Lemma attempts_ok_init : attempts_ok init.
Proof. split; intros ? []. Qed.
End Attempts.

(** ** The in-flight set, the queue and the registry *)

Section MapFacts2.
Context {V : Type}.
Implicit Types (m : list (string * V)) (k : string).

Lemma map_get_In k v m : map_get k m = Some v -> In (k, v) m.
Proof.
  induction m as [| [k' v'] m IH]; cbn [map_get]; [discriminate |].
  destruct (String.eqb_spec k k') as [-> | Hne].
  - intros [= ->]. by left.
  - intros H. right. auto.
Qed.

Lemma In_map_set k v m kv : In kv (map_set k v m) -> kv = (k, v) \/ In kv m.
Proof.
  induction m as [| [k' v'] m IH]; cbn [map_set].
  - intros [<- | []]. by left.
  - destruct (String.eqb_spec k k') as [-> | Hne]; cbn [In].
    + intros [<- | H]; auto.
    + intros [<- | H]; [auto |]. destruct (IH H); auto.
Qed.

Lemma map_get_set_ne k k' v m : k' <> k -> map_get k' (map_set k v m) = map_get k' m.
Proof.
  intros Hne. induction m as [| [k0 v0] m IH]; cbn [map_set map_get].
  - apply String.eqb_neq in Hne. by rewrite Hne.
  - destruct (String.eqb_spec k k0) as [-> | Hk]; cbn [map_get].
    + apply String.eqb_neq in Hne. by rewrite Hne.
    + destruct (String.eqb k' k0); auto.
Qed.

Lemma map_get_delete_ne k k' m : k' <> k -> map_get k' (map_delete k m) = map_get k' m.
Proof.
  intros Hne. induction m as [| [k0 v0] m IH]; cbn [map_delete map_get]; [done |].
  destruct (String.eqb_spec k k0) as [-> | Hk]; cbn [map_get].
  - apply String.eqb_neq in Hne. by rewrite Hne.
  - destruct (String.eqb k' k0); auto.
Qed.

Lemma map_delete_key_gone k m :
  NoDup (map fst m) -> ~ In k (map fst (map_delete k m)).
Proof.
  induction m as [| [k0 v0] m IH]; cbn [map_delete map fst]; [auto |].
  intros [Hk Hm]%NoDup_cons.
  destruct (String.eqb_spec k k0) as [-> | Hne].
  - intros Hin. apply Hk, list_elem_of_In, Hin.
  - cbn [map fst In]. intros [E | Hin]; [congruence | by apply IH].
Qed.

Lemma map_get_delete_eq k m : NoDup (map fst m) -> map_get k (map_delete k m) = None.
Proof. intros H. apply map_get_None, map_delete_key_gone, H. Qed.

Lemma map_has_delete_false k k' m :
  map_has k' m = false -> map_has k' (map_delete k m) = false.
Proof.
  intros H. destruct (map_has k' (map_delete k m)) eqn:E; [| reflexivity].
  apply map_has_true, map_delete_keys_sub, map_has_true in E. congruence.
Qed.

Lemma map_set_NoDup_image {B} (h : string * V -> B) k v m :
  NoDup (map h m) -> (forall kv, In kv m -> h kv <> h (k, v)) ->
  NoDup (map h (map_set k v m)).
Proof.
  induction m as [| [k' v'] m IH]; cbn [map_set map]; intros Hnd Hf.
  - apply NoDup_singleton.
  - apply NoDup_cons in Hnd as [Hk Hm].
    destruct (String.eqb_spec k k') as [-> | Hne]; cbn [map]; apply NoDup_cons.
    + split; [| exact Hm].
      intros Hin%list_elem_of_In%in_map_iff. destruct Hin as (kv & E & Hin).
      apply (Hf kv); [by right | exact E].
    + split.
      * intros Hin%list_elem_of_In%in_map_iff. destruct Hin as (kv & E & Hin).
        apply In_map_set in Hin as [-> | Hin].
        -- apply (Hf (k', v')); [by left | by symmetry].
        -- apply Hk, list_elem_of_In, in_map_iff. eauto.
      * apply IH; [exact Hm |]. intros kv Hin. apply Hf. by right.
Qed.
End MapFacts2.

Section InFlightInvariant.
Variable env : Externals.

Lemma attempt_failed_frame r s :
  let s' := attempt_failed env r s in
  requests s' = requests s /\
  (loaded s' = loaded s \/
   exists g, loaded s' = map_set (r_key r) g (loaded s)).
Proof.
  cbn zeta. rewrite attempt_failed_cases.
  destruct (_ && _); [by fields; auto |].
  cbn zeta. destruct (disposed s); unfold publish; fields; eauto.
Qed.

Lemma resume_body_frame r buf s :
  let s' := resume_body env r buf s in
  requests s' = requests s /\
  (loaded s' = loaded s \/
   exists g, loaded s' = map_set (r_key r) g (loaded s)).
Proof.
  unfold resume_body. cbn zeta.
  repeat (destruct (_ : bool); try apply attempt_failed_frame);
    unfold publish; fields; eauto.
Qed.

Lemma attemptLoad_frame key cx cz n s :
  let s' := attemptLoad key cx cz n s in
  inflight s' = inflight s /\ chunkLoadQueue s' = chunkLoadQueue s /\
  loaded s' = loaded s /\ worldGroup s' = worldGroup s /\
  disposed s' = disposed s /\
  (forall r, In r (requests s) -> In r (requests s')) /\
  (disposed s = false ->
   exists r, In r (requests s') /\ r_key r = key /\ r_id r = next_id s /\
             r_cx r = cx /\ r_cz r = cz /\ r_retryCount r = n).
Proof.
  unfold attemptLoad. destruct (disposed s) eqn:Hd; fields.
  - repeat split; auto. discriminate.
  - repeat split; auto.
    + intros r Hr. apply in_app_iff. by left.
    + intros _. eexists. split; [apply in_app_iff; right; by left |]. by cbn.
Qed.

(** An attempt with key [key] ends: what is left in flight. *)
Lemma inflight_ok_after_end r s s0 s' :
  ids_ok s -> inflight_ok s -> In r (requests s) ->
  inflight s0 = inflight s -> chunkLoadQueue s0 = chunkLoadQueue s ->
  loaded s0 = loaded s ->
  requests s0 = List.filter (fun r' => negb (r_id r' =? r_id r)%nat) (requests s) ->
  inflight s' = inflight s0 ∖ {[r_key r]} ->
  chunkLoadQueue s' = delete (r_key r) (chunkLoadQueue s0) ->
  requests s' = requests s0 ->
  (loaded s' = loaded s0 \/ exists g, loaded s' = map_set (r_key r) g (loaded s0)) ->
  inflight_ok s'.
Proof.
  intros (_ & _ & _ & _ & Hnd & _) (H1 & H2 & H3 & H4) Hr E1 E2 E3 E4 F1 F2 F3 F4.
  unfold inflight_ok. rewrite F1, F2, F3, E1, E2, E4.
  split; [| split; [| split]].
  - rewrite dom_delete_L, H1. reflexivity.
  - intros k v Hk. apply lookup_delete_Some in Hk as [_ Hk]. eauto.
  - intros k [Hk Hne]%elem_of_difference.
    assert (k <> r_key r) by (intros ->; apply Hne, elem_of_singleton; reflexivity).
    specialize (H3 k Hk). unfold map_has in *.
    destruct F4 as [-> | [g ->]]; rewrite E3; [exact H3 |].
    by rewrite map_get_set_ne.
  - intros k [Hk Hne]%elem_of_difference.
    assert (k <> r_key r) by (intros ->; apply Hne, elem_of_singleton; reflexivity).
    destruct (H4 k Hk) as (r' & Hr' & Hkey). exists r'. split; [| exact Hkey].
    apply List.filter_In. split; [exact Hr' |].
    apply negb_true_iff, Nat.eqb_neq. intros E.
    assert (r' = r) by (apply (NoDup_map_inj_on r_id (requests s)); auto).
    congruence.
Qed.

Lemma timer_cleared_frame s r s1 :
  timer_cleared s r s1 ->
  inflight s1 = inflight s /\ chunkLoadQueue s1 = chunkLoadQueue s /\
  loaded s1 = loaded s /\ requests s1 = requests s /\
  worldGroup s1 = worldGroup s /\ disposed s1 = disposed s /\
  next_id s1 = next_id s /\ effects s1 = effects s /\ now s1 = now s /\
  randoms s1 = randoms s.
Proof. intros [-> | [-> | (t & _ & _ & ->)]]; by fields. Qed.

Lemma inflight_ok_transition s s' :
  ids_ok s -> inflight_ok s -> Transition env s s' -> inflight_ok s'.
Proof.
  intros Hi H Ht. pose proof H as (H1 & H2 & H3 & H4).
  destruct Ht as
    [cx cz | dt Hdt | t Hin Hna | r s1 Hr Hc | r Hr Hp | r buf Hr Hp
     | t key cx cz n Hin Hcb Hd Hk | t x z p Hin Hcb Hd Hl Hk
     | t key g Hin Hcb Hg |].
  - destruct (ensureChunksAround_frame cx cz s) as (E1 & E2 & _ & E4 & _ & E6 & _).
    cbn zeta in *. unfold inflight_ok. by rewrite E1, E2, E4, E6.
  - exact H.
  - exact H.
  - destruct (timer_cleared_frame s r s1 Hc) as (E1 & E2 & E3 & E4 & _).
    destruct (attempt_failed_inflight env r (drop_request (r_id r) s1)) as [F1 F2].
    destruct (attempt_failed_frame r (drop_request (r_id r) s1)) as [F3 F4].
    cbn zeta in *.
    apply (inflight_ok_after_end r s (drop_request (r_id r) s1)); auto.
    fields. by rewrite E4.
  - cbn zeta. unfold inflight_ok. fields.
    repeat split; try assumption.
    intros k Hk. destruct (H4 k Hk) as (r' & Hr' & Hkey).
    destruct (Nat.eq_dec (r_id r') (r_id r)) as [E | Hne].
    + eexists. split; [apply in_app_iff; right; by left |]. cbn.
      assert (r' = r) by
        (apply (NoDup_map_inj_on r_id (requests s)); auto; apply Hi).
      congruence.
    + exists r'. split; [| exact Hkey]. apply in_app_iff. left.
      apply List.filter_In. split; [exact Hr' |].
      by apply negb_true_iff, Nat.eqb_neq.
  - destruct (resume_body_inflight env r buf (drop_request (r_id r) s)) as [F1 F2].
    destruct (resume_body_frame r buf (drop_request (r_id r) s)) as [F3 F4].
    cbn zeta in *.
    by apply (inflight_ok_after_end r s (drop_request (r_id r) s)).
  - destruct (attemptLoad_frame key cx cz (n + 1) (clearTimeout (t_id t) s))
      as (E1 & E2 & E3 & _ & _ & E6 & _).
    cbn zeta in *. unfold inflight_ok. rewrite E1, E2, E3. fields.
    repeat split; try assumption.
    intros k Hk'. destruct (H4 k Hk') as (r' & Hr' & Hkey). eauto.
  - cbn zeta.
    match goal with |- inflight_ok (attemptLoad ?k ?x ?z ?n ?s0) =>
      destruct (attemptLoad_frame k x z n s0) as (E1 & E2 & E3 & _ & _ & E6 & E7) end.
    cbn zeta in *. unfold inflight_ok. rewrite E1, E2, E3. fields.
    split; [| split; [| split]].
    + rewrite dom_insert_L, H1. reflexivity.
    + intros k v Hk'. apply lookup_insert_Some in Hk' as [[_ <-] | [_ Hk']];
        [reflexivity | eauto].
    + intros k [->%elem_of_singleton | Hk']%elem_of_union; auto.
    + intros k [->%elem_of_singleton | Hk']%elem_of_union.
      * destruct (E7 Hd) as (r' & Hr' & Hkey & _). eauto.
      * destruct (H4 k Hk') as (r' & Hr' & Hkey). eauto.
  - cbn zeta. unfold inflight_ok. fields. repeat split; try assumption.
    intros k Hk'. apply map_has_delete_false. auto.
  - unfold cleanup. cbn zeta.
    match goal with |- context [fold_left ?f ?l ?s0] =>
      destruct (cleanup_effects_frame l s0) as (_ & G2 & _ & G4 & _) end.
    cbn zeta in *. unfold inflight_ok. fields. rewrite G2, G4. fields.
    repeat split; try apply dom_empty_L.
    all: first [ intros k v Hk'; by rewrite lookup_empty in Hk'
               | intros k Hk'; by apply not_elem_of_empty in Hk' ].
Qed.

Lemma inflight_ok_init : inflight_ok init.
Proof.
  unfold inflight_ok, init. fields.
  repeat split; try apply dom_empty_L.
  all: first [ intros k v Hk; by rewrite lookup_empty in Hk
             | intros k Hk; by apply not_elem_of_empty in Hk ].
Qed.
End InFlightInvariant.

Section RegistryInvariant.
Variable env : Externals.

Lemma registry_ok_same s s' :
  loaded s' = loaded s -> worldGroup s' = worldGroup s ->
  registry_ok env s -> registry_ok env s'.
Proof. unfold registry_ok. intros -> ->. auto. Qed.

Lemma registry_ok_publish cx cz p grid s :
  ids_ok s -> registry_ok env s ->
  registry_ok env (publish env (Key.keyOf cx cz) cx cz p grid s).
Proof.
  intros (_ & _ & Hg & _) (H1 & H2 & H3). unfold registry_ok, publish. fields.
  split; [| split].
  - intros k g Hin. apply In_map_set in Hin as [[= -> ->] | Hin].
    + split; [apply in_app_iff; right; by left |]. cbn. eauto.
    + destruct (H1 k g Hin) as [Hw Hpos]. split; [| exact Hpos].
      apply in_app_iff. by left.
  - by apply map_set_NoDup.
  - apply map_set_NoDup_image; [exact H3 |]. intros [k g] Hin. cbn.
    destruct (H1 k g Hin) as [Hw _]. specialize (Hg g Hw). lia.
Qed.

Lemma registry_ok_attempt_failed r s :
  request_ok r -> ids_ok s -> registry_ok env s ->
  registry_ok env (attempt_failed env r s).
Proof.
  intros (_ & Hkey & _) Hi H. rewrite attempt_failed_cases.
  match goal with |- registry_ok _ (finally_block _ ?s0) =>
    apply (registry_ok_same s0); [reflexivity | reflexivity |] end.
  destruct (_ && _); [revert H; by apply registry_ok_same |].
  cbn zeta. destruct (disposed s); [revert H; by apply registry_ok_same |].
  rewrite Hkey. apply registry_ok_publish.
  - revert Hi. by apply ids_ok_same.
  - revert H. by apply registry_ok_same.
Qed.

Lemma registry_ok_resume_body r buf s :
  request_ok r -> ids_ok s -> registry_ok env s ->
  registry_ok env (resume_body env r buf s).
Proof.
  intros Hr Hi H. unfold resume_body. cbn zeta.
  repeat (destruct (_ : bool); try by apply registry_ok_attempt_failed).
  - revert H. by apply registry_ok_same.
  - match goal with |- registry_ok _ (finally_block _ ?s0) =>
      apply (registry_ok_same s0); [reflexivity | reflexivity |] end.
    destruct Hr as (_ & -> & _). by apply registry_ok_publish.
Qed.

Lemma registry_ok_transition s s' :
  ids_ok s -> attempts_ok s -> registry_ok env s -> Transition env s s' ->
  registry_ok env s'.
Proof.
  intros Hi Ha H Ht. destruct Ht as
    [cx cz | dt Hdt | t Hin Hna | r s1 Hr Hc | r Hr Hp | r buf Hr Hp
     | t key cx cz n Hin Hcb Hd Hk | t x z p Hin Hcb Hd Hl Hk
     | t key g Hin Hcb Hg |].
  - destruct (ensureChunksAround_frame cx cz s) as (E1 & _ & _ & _ & E5 & _).
    cbn zeta in *. revert H. by apply registry_ok_same.
  - exact H.
  - exact H.
  - destruct (timer_cleared_frame s r s1 Hc) as (_ & _ & E3 & _ & E5 & _).
    apply registry_ok_attempt_failed; [apply Ha, Hr | |].
    + apply ids_ok_drop_request.
      destruct Hc as [-> | [-> | (t & _ & _ & ->)]];
        [exact Hi | by apply ids_ok_clearTimeout | by apply ids_ok_clearTimeout].
    + revert H. apply registry_ok_same; by fields.
  - exact H.
  - apply registry_ok_resume_body;
      [apply Ha, Hr | by apply ids_ok_drop_request | exact H].
  - destruct (attemptLoad_frame key cx cz (n + 1) (clearTimeout (t_id t) s))
      as (_ & _ & E3 & E4 & _).
    cbn zeta in *. revert H. by apply registry_ok_same.
  - cbn zeta.
    match goal with |- registry_ok _ (attemptLoad ?k ?x' ?z' ?n ?s0) =>
      destruct (attemptLoad_frame k x' z' n s0) as (_ & _ & E3 & E4 & _) end.
    cbn zeta in *. revert H. by apply registry_ok_same.
  - cbn zeta. destruct H as (H1 & H2 & H3). unfold registry_ok. fields.
    split; [| split].
    + intros k' g' Hin'. pose proof (In_map_delete _ _ _ Hin') as Hold.
      destruct (H1 k' g' Hold) as [Hw Hpos]. split; [| exact Hpos].
      apply List.filter_In. split; [exact Hw |].
      apply negb_true_iff, Nat.eqb_neq. intros E.
      assert (Heq : (k', g') = (key, g)).
      { apply (NoDup_map_inj_on (fun kg => g_id (snd kg)) (loaded s));
          auto. by apply map_get_In. }
      injection Heq as -> ->.
      apply (map_delete_key_gone key (loaded s) H2).
      apply in_map_iff. exists (key, g). by split.
    + by apply map_delete_NoDup.
    + clear -H3. induction (loaded s) as [| [k0 g0] l IH]; cbn [map_delete map];
        [constructor |].
      apply NoDup_cons in H3 as [Hk Hl].
      destruct (String.eqb key k0); [exact Hl |]. cbn [map].
      apply NoDup_cons. split; [| by apply IH].
      intros Hin'%list_elem_of_In%in_map_iff. destruct Hin' as (kg & E & Hin').
      apply Hk, list_elem_of_In, in_map_iff. exists kg.
      split; [exact E | by apply In_map_delete in Hin'].
  - unfold cleanup. cbn zeta. unfold registry_ok. fields.
    split; [intros k g [] | split; constructor].
Qed.

Lemma registry_ok_init : registry_ok env init.
Proof. split; [intros k g [] | split; constructor]. Qed.

(** Every state that the event loop reaches is consistent. *)
Lemma consistent_transition s s' :
  consistent env s -> Transition env s s' -> consistent env s'.
Proof.
  intros (H1 & H2 & H3 & H4) Ht. split; [| split; [| split]].
  - by apply (ids_ok_transition env s).
  - by apply (attempts_ok_transition env s).
  - by apply (inflight_ok_transition env s).
  - by apply (registry_ok_transition s).
Qed.

Lemma consistent_run es : forall s s',
  consistent env s -> run env s es = Some s' -> consistent env s'.
Proof.
  induction es as [| e es IH]; intros s s' H Hr; cbn [run] in Hr.
  - by injection Hr as <-.
  - destruct (step env s e) as [s1 |] eqn:Hs; [| discriminate].
    apply (IH s1 s'); [| exact Hr].
    apply (consistent_transition s); [exact H |].
    exact (step_transition env s e s1 Hs).
Qed.

Lemma reachable_consistent es s :
  run env init es = Some s -> consistent env s.
Proof.
  apply consistent_run. split; [apply ids_ok_init |].
  split; [apply attempts_ok_init |].
  split; [apply inflight_ok_init | apply registry_ok_init].
Qed.
End RegistryInvariant.

(** ** What holds in every reachable state *)

(** X5. [chunkLoadQueue] is a copy of [inflight]: in every reachable state
    its keys are the keys in flight, and the [retries] field of every entry
    is 0, since nothing updates an entry after [loadChunkAt] made it. *)
Theorem queue_mirrors_inflight env es s :
  run env init es = Some s ->
  dom (chunkLoadQueue s) = inflight s /\
  (forall k priority retries,
     chunkLoadQueue s !! k = Some (priority, retries) -> retries = 0).
Proof.
  intros Hr. destruct (reachable_consistent env es s Hr) as (_ & _ & (H1 & H2 & _) & _).
  split; [exact H1 |]. intros k p n Hk. exact (H2 k (p, n) Hk).
Qed.

Lemma queue_mirrors_inflight_witness :
  dom (chunkLoadQueue (state_after camera_moves)) = inflight (state_after camera_moves) /\
  (forall k priority retries,
     chunkLoadQueue (state_after camera_moves) !! k = Some (priority, retries) ->
     retries = 0).
Proof.
  apply (queue_mirrors_inflight demo_env camera_moves). vm_compute. reflexivity.
Defined.

(** X6. In every reachable state a key that is in flight is not loaded:
    publication is followed by the [finally] block, which takes the key out
    of [inflight], and [loadChunkAt] puts in only keys that are not loaded. *)
Theorem in_flight_key_is_not_loaded env es s k :
  run env init es = Some s -> k ∈ inflight s -> map_has k (loaded s) = false.
Proof.
  intros Hr. destruct (reachable_consistent env es s Hr) as (_ & _ & (_ & _ & H3 & _) & _).
  apply H3.
Qed.

Lemma in_flight_key_is_not_loaded_witness :
  map_has "0,0" (loaded (state_after camera_moves)) = false.
Proof.
  apply (in_flight_key_is_not_loaded demo_env camera_moves).
  - vm_compute. reflexivity.
  - refine (bool_decide_unpack _ _). vm_compute. exact Logic.I.
Defined.

(** X7. In every reachable state a key in flight has an attempt in progress
    (suspended at [await fetch] or at [await arrayBuffer]): [inflight] holds
    no key that nothing is working on. *)
Theorem in_flight_key_has_attempt env es s k :
  run env init es = Some s -> k ∈ inflight s ->
  exists r, In r (requests s) /\ r_key r = k.
Proof.
  intros Hr. destruct (reachable_consistent env es s Hr) as (_ & _ & (_ & _ & _ & H4) & _).
  apply H4.
Qed.

Lemma in_flight_key_has_attempt_witness :
  exists r, In r (requests (state_after camera_moves)) /\ r_key r = "0,0".
Proof.
  apply (in_flight_key_has_attempt demo_env camera_moves).
  - vm_compute. reflexivity.
  - refine (bool_decide_unpack _ _). vm_compute. exact Logic.I.
Defined.

(** X8. No attempt is a fifth one: in every reachable state the retry count
    of an attempt in progress is between 0 and 3 and that of a pending retry
    timer between 0 and 2, and both carry the key of their own chunk. *)
Theorem retry_count_is_bounded env es s :
  run env init es = Some s ->
  (forall r, In r (requests s) ->
     0 <= r_retryCount r <= maxRetries /\ r_key r = Key.keyOf (r_cx r) (r_cz r)) /\
  (forall t key cx cz n, In t (timers s) -> t_cb t = CbRetry key cx cz n ->
     0 <= n < maxRetries /\ key = Key.keyOf cx cz).
Proof.
  intros Hr. destruct (reachable_consistent env es s Hr) as (_ & (H1 & H2) & _).
  split.
  - intros r Hin. destruct (H1 r Hin) as [(_ & Hk & Hn) _]. auto.
  - intros t key cx cz n Hin Hcb. specialize (H2 t Hin).
    unfold callback_ok in H2. rewrite Hcb in H2. tauto.
Qed.

Lemma retry_count_is_bounded_witness :
  (forall r, In r (requests (state_after retry_joins)) ->
     0 <= r_retryCount r <= maxRetries /\ r_key r = Key.keyOf (r_cx r) (r_cz r)) /\
  (forall t key cx cz n, In t (timers (state_after retry_joins)) ->
     t_cb t = CbRetry key cx cz n -> 0 <= n < maxRetries /\ key = Key.keyOf cx cz).
Proof.
  apply (retry_count_is_bounded demo_env retry_joins). vm_compute. reflexivity.
Defined.

(** X9. The 10 s timeout covers the wait for the response only. In every
    reachable state an attempt that awaits the response has its abort timer
    pending, and an attempt that awaits the body has none: once [fetch] has
    resolved nothing times the attempt out. *)
Theorem abort_timer_until_response env es s r :
  run env init es = Some s -> In r (requests s) ->
  match r_phase r with
  | AwaitFetch =>
      exists t, In t (timers s) /\ t_cb t = CbAbort (r_id r) /\
                t_id t = r_timeoutId r
  | AwaitBody =>
      forall t, In t (timers s) -> t_cb t <> CbAbort (r_id r)
  end.
Proof.
  intros Hr Hin.
  destruct (reachable_consistent env es s Hr) as (_ & (H1 & H2) & _).
  destruct (H1 r Hin) as [(Hto & _) Hab]. unfold abort_timer_ok in Hab.
  destruct (r_phase r).
  - destruct Hab as (t & Ht & Hid & Hcb). exists t. rewrite Hto. auto.
  - intros t Ht Hcb. specialize (H2 t Ht). unfold callback_ok in H2.
    rewrite Hcb in H2. by apply (Hab t Ht).
Qed.

Lemma abort_timer_until_response_witness :
  exists t, In t (timers (state_after two_loads_started)) /\
            t_cb t = CbAbort 169 /\ t_id t = 170%nat.
Proof.
  apply (abort_timer_until_response demo_env two_loads_started
           (state_after two_loads_started)
           {| r_id := 169; r_key := "0,0"; r_cx := 0; r_cz := 0;
              r_retryCount := 0; r_phase := AwaitFetch; r_timeoutId := 170 |}).
  - vm_compute. reflexivity.
  - vm_compute. repeat (first [left; reflexivity | right]).
Defined.

(** ** After disposal *)

Section AfterDisposal.
Variable env : Externals.

Lemma filter_fetch_dispose (l : list (string * Group)) :
  List.filter is_fetch (map (fun kg => DisposeObject (g_id (snd kg))) l) = [].
Proof. induction l as [| kg l IH]; [done | exact IH]. Qed.

Lemma resume_body_disposed_effects r buf s :
  disposed s = true ->
  List.filter is_fetch (effects (resume_body env r buf s)) =
  List.filter is_fetch (effects s).
Proof.
  intros Hd. unfold resume_body.
  assert (Hf : List.filter is_fetch (effects (attempt_failed env r s)) =
               List.filter is_fetch (effects s)).
  { destruct (attempt_failed_disposed env r s Hd) as (_ & _ & _ & _ & -> & _).
    rewrite List.filter_app. cbn. apply app_nil_r. }
  destruct (_ =? 0); [exact Hf |]. cbn zeta.
  destruct (negb _); [exact Hf |]. rewrite Hd. reflexivity.
Qed.

Lemma transition_disposed s s' :
  disposed s = true -> Transition env s s' ->
  disposed s' = true /\
  List.filter is_fetch (effects s') = List.filter is_fetch (effects s) /\
  (forall r, In r (requests s') -> In (r_id r) (map r_id (requests s))).
Proof.
  intros Hd Ht.
  destruct Ht as [cx cz | dt Hdt | t Hin Hab | r s1 Hin Hc | r Hin Hph
                 | r buf Hin Hph | t key cx cz n Hin Hcb Hnd Hk
                 | t x z p Hin Hcb Hnd Hl Hk | t key g Hin Hcb Hg |].
  - destruct (ensureChunksAround_frame cx cz s)
      as (_ & _ & H3 & _ & _ & H6 & _ & _ & H9).
    cbn zeta in *. rewrite H3, H6, H9. repeat split; [exact Hd |].
    intros r. apply in_map.
  - fields. repeat split; [exact Hd |]. intros r. apply in_map.
  - fields. repeat split; [exact Hd |]. intros r. apply in_map.
  - destruct (timer_cleared_frame s r s1 Hc)
      as (_ & _ & _ & H4 & _ & H6 & _ & H8 & _).
    assert (Hd1 : disposed (drop_request (r_id r) s1) = true)
      by (fields; congruence).
    destruct (attempt_failed_disposed env r _ Hd1)
      as (_ & _ & G3 & _ & G5 & _ & G7).
    cbn zeta in *. rewrite G5, G7. fields. rewrite List.filter_app, H8, H4.
    split; [exact G3 |]. split; [cbn; apply app_nil_r |].
    intros r' [Hr' _]%List.filter_In. by apply in_map.
  - fields. repeat split; [exact Hd |].
    intros r' [[Hr' _]%List.filter_In | [<- | []]]%in_app_iff.
    + by apply in_map.
    + cbn [r_id]. by apply in_map.
  - assert (Hd1 : disposed (drop_request (r_id r) s) = true) by exact Hd.
    destruct (resume_body_disposed env r buf _ Hd1) as (_ & _ & G3 & _ & _ & _ & G7).
    cbn zeta in *. rewrite (resume_body_disposed_effects r buf _ Hd1), G7. fields.
    repeat split; [exact G3 |].
    intros r' [Hr' _]%List.filter_In. by apply in_map.
  - congruence.
  - congruence.
  - fields. rewrite List.filter_app. cbn. rewrite app_nil_r.
    repeat split; [exact Hd |]. intros r. apply in_map.
  - unfold cleanup.
    match goal with |- context [fold_left ?f ?l ?s0] =>
      destruct (cleanup_effects_frame l s0)
        as (_ & _ & G3 & _ & _ & _ & G7 & _ & _ & _ & G11) end.
    cbn zeta in *. fields. rewrite G11, G7, List.filter_app, filter_fetch_dispose.
    fields. rewrite app_nil_r. repeat split; [exact G3 |]. intros r. apply in_map.
Qed.

(** X10. After disposal no request is sent any more: whatever happens, the
    fetches issued stay the ones issued before, and the attempts in progress
    are among those that were in progress. *)
Theorem no_fetch_after_disposal es : forall s s',
  disposed s = true -> run env s es = Some s' ->
  List.filter is_fetch (effects s') = List.filter is_fetch (effects s) /\
  (forall r, In r (requests s') -> In (r_id r) (map r_id (requests s))).
Proof.
  induction es as [| e es IH]; intros s s' Hd Hr; cbn [run] in Hr.
  - injection Hr as <-. split; [reflexivity |]. intros r. apply in_map.
  - destruct (step env s e) as [s1 |] eqn:Hs; [| discriminate].
    destruct (transition_disposed s s1 Hd (step_transition env s e s1 Hs))
      as (H1 & H2 & H3).
    destruct (IH s1 s' H1 Hr) as [G2 G3]. rewrite G2, H2. split; [reflexivity |].
    intros r Hin. specialize (G3 r Hin). apply in_map_iff in G3 as (r1 & <- & Hin1).
    by apply H3.
Qed.
End AfterDisposal.

Lemma no_fetch_after_disposal_witness :
  List.filter is_fetch
    (effects (state_after (disposed_early ++ [EElapse 50; EFire 1; EResponse 169 false]))) =
  List.filter is_fetch (effects (state_after disposed_early)) /\
  (forall r, In r (requests (state_after (disposed_early
                               ++ [EElapse 50; EFire 1; EResponse 169 false]))) ->
             In (r_id r) (map r_id (requests (state_after disposed_early)))).
Proof.
  apply (no_fetch_after_disposal demo_env [EElapse 50; EFire 1; EResponse 169 false]
           (state_after disposed_early)); vm_compute; reflexivity.
Defined.

(** ** The registry and the scene *)

(** X11. In every reachable state a record of [loaded] is a child of
    [worldGroup], stands under the key of the chunk it was built for, at
    that chunk's place [(cx * CHUNK, 0, cz * CHUNK)], and no other key holds
    the same group. *)
Theorem loaded_record_in_scene env es s k g :
  run env init es = Some s -> map_get k (loaded s) = Some g ->
  In g (worldGroup s) /\
  (exists cx cz, k = Key.keyOf cx cz /\
                 g_position g = (cx * CHUNK env, 0, cz * CHUNK env)) /\
  (forall k' g', map_get k' (loaded s) = Some g' -> g_id g' = g_id g -> k' = k).
Proof.
  intros Hr Hg. apply map_get_In in Hg.
  destruct (reachable_consistent env es s Hr) as (_ & _ & _ & (H1 & _ & H3)).
  destruct (H1 k g Hg) as [Hin Hpos]. repeat split; [exact Hin | exact Hpos |].
  intros k' g' Hg' E. apply map_get_In in Hg'.
  assert (Heq : (k', g') = (k, g)).
  { apply (NoDup_map_inj_on (fun kg => g_id (snd kg)) (loaded s)); auto. }
  congruence.
Qed.

Lemma loaded_record_in_scene_witness :
  let g := {| g_id := 369; g_grid := demo_grid; g_helper := Remote;
              g_position := (0, 0, 0) |} in
  In g (worldGroup (state_after second_load_done)) /\
  (exists cx cz, "0,0" = Key.keyOf cx cz /\
                 g_position g = (cx * CHUNK demo_env, 0, cz * CHUNK demo_env)) /\
  (forall k' g', map_get k' (loaded (state_after second_load_done)) = Some g' ->
                 g_id g' = g_id g -> k' = "0,0").
Proof.
  apply (loaded_record_in_scene demo_env second_load_done
           (state_after second_load_done) "0,0"); vm_compute; reflexivity.
Defined.

(** X12. A prune timer that finds its key loaded takes that record out of
    [loaded], takes its group, and no other, out of the scene, and disposes
    of it once; every other record stays. *)
Theorem prune_removes_record env es s key g :
  run env init es = Some s -> map_get key (loaded s) = Some g ->
  let s' := run_callback env (CbPrune key) s in
  map_get key (loaded s') = None /\
  (forall k, k <> key -> map_get k (loaded s') = map_get k (loaded s)) /\
  (forall g', In g' (worldGroup s') <-> In g' (worldGroup s) /\ g' <> g) /\
  effects s' = effects s ++ [DisposeObject (g_id g)] /\
  inflight s' = inflight s /\ timers s' = timers s /\ requests s' = requests s.
Proof.
  intros Hr Hg.
  destruct (reachable_consistent env es s Hr)
    as ((_ & _ & _ & _ & _ & Hids) & _ & _ & (H1 & H2 & _)).
  destruct (H1 key g (map_get_In key g _ Hg)) as [Hin _].
  cbn [run_callback]. rewrite Hg. cbn zeta. fields.
  split; [by apply map_get_delete_eq |].
  split; [intros k Hk; by apply map_get_delete_ne |].
  split; [| by repeat split].
  intros g'. rewrite List.filter_In, negb_true_iff, Nat.eqb_neq.
  split; intros [Hin' Hne]; (split; [exact Hin' |]).
  - intros ->. by apply Hne.
  - intros E. apply Hne. by apply (NoDup_map_inj_on g_id (worldGroup s)).
Qed.

Lemma prune_removes_record_witness :
  let s := state_after second_load_done in
  let g := {| g_id := 369; g_grid := demo_grid; g_helper := Remote;
              g_position := (0, 0, 0) |} in
  let s' := run_callback demo_env (CbPrune "0,0") s in
  map_get "0,0" (loaded s') = None /\
  (forall k, k <> "0,0" -> map_get k (loaded s') = map_get k (loaded s)) /\
  (forall g', In g' (worldGroup s') <-> In g' (worldGroup s) /\ g' <> g) /\
  effects s' = effects s ++ [DisposeObject (g_id g)] /\
  inflight s' = inflight s /\ timers s' = timers s /\ requests s' = requests s.
Proof.
  apply (prune_removes_record demo_env second_load_done
           (state_after second_load_done) "0,0"); vm_compute; reflexivity.
Defined.

(** ** How a failing attempt ends *)

Section FailureEnds.
Variable env : Externals.

(** X13. After disposal a failing attempt still runs the generator and the
    painter, drawing a random number, and throws the grid away: nothing is
    loaded or added to the scene and no timer is set. *)
Theorem failure_after_disposal_generates s rid r e :
  disposed s = true -> find_request rid s = Some r -> r_phase r = AwaitFetch ->
  In e [EFetchError rid; EResponse rid false] ->
  exists s', step env s e = Some s' /\
    effects s' = effects s ++ [Generate (r_key r)] /\
    randoms s' = S (randoms s) /\
    loaded s' = loaded s /\ worldGroup s' = worldGroup s /\
    (forall t, In t (timers s') -> In t (timers s)).
Proof.
  intros Hd Hf Hph He.
  assert (H : forall s1, disposed s1 = true ->
    let s' := attempt_failed env r s1 in
    effects s' = effects s1 ++ [Generate (r_key r)] /\
    randoms s' = S (randoms s1) /\
    loaded s' = loaded s1 /\ worldGroup s' = worldGroup s1 /\
    timers s' = timers s1).
  { intros s1 Hd1. cbn zeta. rewrite attempt_failed_cases, Hd1, andb_false_r.
    cbn zeta. fields. by repeat split. }
  destruct He as [<- | [<- | []]]; cbn [step]; rewrite Hf, Hph;
    eexists; (split; [reflexivity |]).
  - destruct (H (drop_request rid s) Hd) as (G1 & G2 & G3 & G4 & G5).
    cbn zeta in *. rewrite G1, G2, G3, G4, G5. fields. by repeat split.
  - unfold resume_fetch. cbn [negb]. cbn zeta.
    destruct (H (clearTimeout (r_timeoutId r) (drop_request rid s)) Hd)
      as (G1 & G2 & G3 & G4 & G5).
    cbn zeta in *. rewrite G1, G2, G3, G4, G5. fields. repeat split.
    intros t [Ht _]%List.filter_In. exact Ht.
Qed.

End FailureEnds.

Lemma failure_after_disposal_generates_witness :
  exists s', step demo_env (state_after disposed_early) (EFetchError 169) = Some s' /\
    effects s' = effects (state_after disposed_early) ++ [Generate "0,0"] /\
    randoms s' = S (randoms (state_after disposed_early)) /\
    loaded s' = loaded (state_after disposed_early) /\
    worldGroup s' = worldGroup (state_after disposed_early) /\
    (forall t, In t (timers s') -> In t (timers (state_after disposed_early))).
Proof.
  apply (failure_after_disposal_generates demo_env (state_after disposed_early) 169
           {| r_id := 169; r_key := "0,0"; r_cx := 0; r_cz := 0;
              r_retryCount := 0; r_phase := AwaitFetch; r_timeoutId := 170 |}
           (EFetchError 169)).
  - vm_compute. reflexivity.
  - vm_compute. reflexivity.
  - reflexivity.
  - left. reflexivity.
Defined.


(** ** When the timers of an attempt are due *)

Section Due.
Variable env : Externals.

Lemma due_ok_sub s s' :
  (forall t, In t (timers s') -> In t (timers s)) -> now s <= now s' ->
  due_ok s -> due_ok s'.
Proof.
  intros Hsub Hnow H t b Hin Hb. specialize (H t b (Hsub t Hin) Hb). lia.
Qed.

Lemma due_ok_same s s' :
  timers s' = timers s -> now s' = now s -> due_ok s -> due_ok s'.
Proof. intros Ht Hn. apply due_ok_sub; [by rewrite Ht | lia]. Qed.

Lemma due_ok_setTimeout cb delay s :
  (forall b, due_bound cb = Some b -> delay <= b) ->
  due_ok s -> due_ok (setTimeout cb delay s).
Proof.
  intros Hcb H t b. fields. intros [Hin | [<- | []]]%in_app_iff Hb.
  - by apply H.
  - cbn in *. specialize (Hcb b Hb). lia.
Qed.

Lemma due_ok_clearTimeout tid s : due_ok s -> due_ok (clearTimeout tid s).
Proof.
  apply due_ok_sub; fields; [| lia]. by intros t [Hin _]%List.filter_In.
Qed.

Lemma due_ok_stagger {A} (cb : A -> Callback) gap l :
  (forall a, due_bound (cb a) = None) ->
  forall index s, due_ok s -> due_ok (stagger cb gap index l s).
Proof.
  intros Hcb. induction l as [| a l IH]; intros index s H; cbn [stagger]; [exact H |].
  apply IH, due_ok_setTimeout; [| exact H]. intros b. by rewrite Hcb.
Qed.

Lemma due_ok_attempt_failed r s : due_ok s -> due_ok (attempt_failed env r s).
Proof.
  intros H. rewrite attempt_failed_cases.
  match goal with |- due_ok (finally_block _ ?s0) =>
    apply (due_ok_same s0); [reflexivity | reflexivity |] end.
  destruct (_ && _).
  - apply due_ok_setTimeout; [| exact H]. cbn [due_bound]. intros b [= <-]. lia.
  - cbn zeta. destruct (disposed s); revert H; by apply due_ok_same.
Qed.

Lemma due_ok_resume_body r buf s : due_ok s -> due_ok (resume_body env r buf s).
Proof.
  intros H. unfold resume_body. cbn zeta.
  repeat (destruct (_ : bool); try by apply due_ok_attempt_failed);
    revert H; by apply due_ok_same.
Qed.

Lemma due_ok_attemptLoad key cx cz n s :
  due_ok s -> due_ok (attemptLoad key cx cz n s).
Proof.
  intros H. unfold attemptLoad. destruct (disposed s); [exact H |]. cbn zeta.
  match goal with |- due_ok (set_requests _ (emit _ ?s0)) =>
    apply (due_ok_same s0); [reflexivity | reflexivity |] end.
  apply due_ok_setTimeout.
  - cbn [due_bound]. intros b [= <-]. lia.
  - revert H. by apply due_ok_same.
Qed.

Lemma due_ok_transition s s' : due_ok s -> Transition env s s' -> due_ok s'.
Proof.
  intros H Ht. destruct Ht as
    [cx cz | dt Hdt | t Hin Hna | r s1 Hr Hc | r Hr Hp | r buf Hr Hp
     | t key cx cz n Hin Hcb Hd Hk | t x z p Hin Hcb Hd Hl Hk
     | t key g Hin Hcb Hg |].
  - unfold ensureChunksAround. cbn zeta.
    apply due_ok_stagger; [reflexivity |]. by apply due_ok_stagger.
  - revert H. apply due_ok_sub; fields; [auto | lia].
  - by apply due_ok_clearTimeout.
  - apply due_ok_attempt_failed.
    assert (H1 : due_ok s1).
    { destruct Hc as [-> | [-> | (t & _ & _ & ->)]];
        [exact H | by apply due_ok_clearTimeout | by apply due_ok_clearTimeout]. }
    revert H1. by apply due_ok_same.
  - cbn zeta. generalize (due_ok_clearTimeout (r_timeoutId r) s H).
    by apply due_ok_same.
  - apply due_ok_resume_body. revert H. by apply due_ok_same.
  - by apply due_ok_attemptLoad, due_ok_clearTimeout.
  - cbn zeta. apply due_ok_attemptLoad.
    generalize (due_ok_clearTimeout (t_id t) s H). by apply due_ok_same.
  - cbn zeta. generalize (due_ok_clearTimeout (t_id t) s H). by apply due_ok_same.
  - unfold cleanup. cbn zeta.
    match goal with |- context [fold_left ?f ?l ?s0] =>
      destruct (cleanup_effects_frame l s0)
        as (_ & _ & _ & _ & _ & G6 & _ & G8 & _) end.
    cbn zeta in *. revert H. apply due_ok_same; fields; assumption.
Qed.

Lemma due_ok_run es : forall s s',
  due_ok s -> run env s es = Some s' -> due_ok s'.
Proof.
  induction es as [| e es IH]; intros s s' H Hr; cbn [run] in Hr.
  - by injection Hr as <-.
  - destruct (step env s e) as [s1 |] eqn:Hs; [| discriminate].
    apply (IH s1 s'); [| exact Hr].
    exact (due_ok_transition s s1 H (step_transition env s e s1 Hs)).
Qed.

Lemma find_timer_In t s :
  NoDup (map t_id (timers s)) -> In t (timers s) -> find_timer (t_id t) s = Some t.
Proof.
  intros Hnd Hin. unfold find_timer.
  destruct (List.find _ (timers s)) as [t' |] eqn:E.
  - apply List.find_some in E as [Hin' Hid]. apply Nat.eqb_eq in Hid.
    f_equal. by apply (NoDup_map_inj_on t_id (timers s)).
  - apply (List.find_none _ _ E) in Hin. by rewrite Nat.eqb_refl in Hin.
Qed.

Lemma find_request_In r s :
  NoDup (map r_id (requests s)) -> In r (requests s) ->
  find_request (r_id r) s = Some r.
Proof.
  intros Hnd Hin. unfold find_request.
  destruct (List.find _ (requests s)) as [r' |] eqn:E.
  - apply List.find_some in E as [Hin' Hid]. apply Nat.eqb_eq in Hid.
    f_equal. by apply (NoDup_map_inj_on r_id (requests s)).
  - apply (List.find_none _ _ E) in Hin. by rewrite Nat.eqb_refl in Hin.
Qed.

(** X15. In every reachable state the abort timer of an attempt is due at
    most 10 s from now, and a retry timer at most 4 s from now (1, 2 or 4 s
    after the failure that set it). *)
Theorem attempt_timers_due_soon es s t :
  run env init es = Some s -> In t (timers s) ->
  match t_cb t with
  | CbAbort _ => t_due t <= now s + 10000
  | CbRetry _ _ _ n =>
      t_due t <= now s + baseRetryDelay * 2 ^ n /\
      baseRetryDelay * 2 ^ n <= 4000
  | CbLoad _ _ _ | CbPrune _ => True
  end.
Proof.
  intros Hr Hin.
  assert (Hdue : due_ok s).
  { apply (due_ok_run es init s); [| exact Hr]. intros t0 b []. }
  destruct (reachable_consistent env es s Hr) as (_ & (_ & Hcb) & _).
  specialize (Hcb t Hin). specialize (Hdue t). unfold callback_ok in Hcb.
  destruct (t_cb t) as [rid | key cx cz n | |]; cbn [due_bound] in Hdue; auto.
  split; [by apply Hdue |]. destruct Hcb as [_ Hn].
  unfold baseRetryDelay, maxRetries in *.
  assert (Hc : n = 0 \/ n = 1 \/ n = 2) by lia.
  destruct Hc as [-> | [-> | ->]]; cbn; lia.
Qed.

(** X16. The timeout is a failure like any other. In every reachable state
    an attempt that awaits the response has its abort timer pending, and
    when that timer runs the attempt ends as it does when [fetch] rejects:
    the [catch] block, then the [finally] block. *)
Theorem timeout_fails_attempt es s r :
  run env init es = Some s -> In r (requests s) -> r_phase r = AwaitFetch ->
  exists t, find_timer (r_timeoutId r) s = Some t /\
    t_cb t = CbAbort (r_id r) /\
    (t_due t <= now s -> runs_first t s = true ->
     step env s (EFire (r_timeoutId r)) =
     Some (attempt_failed env r
             (drop_request (r_id r) (clearTimeout (r_timeoutId r) s)))) /\
    step env s (EFetchError (r_id r)) =
    Some (attempt_failed env r (drop_request (r_id r) s)).
Proof.
  intros Hr Hin Hph.
  destruct (reachable_consistent env es s Hr)
    as ((_ & _ & _ & Hnt & Hnr & _) & (Hreq & _) & _).
  destruct (Hreq r Hin) as [(Hto & _) Hab]. unfold abort_timer_ok in Hab.
  rewrite Hph in Hab. destruct Hab as (t & Ht & Hid & Hcb).
  pose proof (find_timer_In t s Hnt Ht) as Hft.
  pose proof (find_request_In r s Hnr Hin) as Hfr.
  rewrite Hto, <- Hid. exists t. split; [exact Hft |]. split; [exact Hcb |]. split.
  - intros Hdue Hfirst. cbn [step]. rewrite Hft.
    apply Z.leb_le in Hdue. rewrite Hdue, Hfirst. cbn [andb]. rewrite Hcb.
    cbn [run_callback].
    change (find_request (r_id r) (clearTimeout (t_id t) s))
      with (find_request (r_id r) s).
    rewrite Hfr. reflexivity.
  - cbn [step]. rewrite Hfr, Hph. reflexivity.
Qed.
End Due.

Lemma attempt_timers_due_soon_witness :
  1020 <= now (state_after (first_failure ++ neighbours_start)) + baseRetryDelay * 2 ^ 0 /\
  baseRetryDelay * 2 ^ 0 <= 4000.
Proof.
  apply (attempt_timers_due_soon demo_env (first_failure ++ neighbours_start)
           (state_after (first_failure ++ neighbours_start))
           {| t_id := 171; t_due := 1020; t_cb := CbRetry "0,0" 0 0 0 |}).
  - vm_compute. reflexivity.
  - vm_compute. repeat (first [left; reflexivity | right]).
Defined.

Lemma timeout_fails_attempt_witness :
  let s := state_after two_loads_started in
  let r := {| r_id := 169; r_key := "0,0"; r_cx := 0; r_cz := 0;
              r_retryCount := 0; r_phase := AwaitFetch; r_timeoutId := 170 |} in
  exists t, find_timer (r_timeoutId r) s = Some t /\
    t_cb t = CbAbort (r_id r) /\
    (t_due t <= now s -> runs_first t s = true ->
     step demo_env s (EFire (r_timeoutId r)) =
     Some (attempt_failed demo_env r
             (drop_request (r_id r) (clearTimeout (r_timeoutId r) s)))) /\
    step demo_env s (EFetchError (r_id r)) =
    Some (attempt_failed demo_env r (drop_request (r_id r) s)).
Proof.
  apply (timeout_fails_attempt demo_env two_loads_started
           (state_after two_loads_started)
           {| r_id := 169; r_key := "0,0"; r_cx := 0; r_cz := 0;
              r_retryCount := 0; r_phase := AwaitFetch; r_timeoutId := 170 |}).
  - vm_compute. reflexivity.
  - vm_compute. repeat (first [left; reflexivity | right]).
  - reflexivity.
Defined.

(** ** A load that succeeds *)

Section RoundTrip.
Variable env : Externals.

Lemma filter_snoc_fresh {A} (p : A -> bool) (l : list A) (a : A) :
  (forall x, In x l -> p x = true) -> p a = false ->
  List.filter p (l ++ [a]) = l.
Proof.
  intros Hl Ha. rewrite List.filter_app. cbn [List.filter]. rewrite Ha, app_nil_r.
  induction l as [| x l IH]; cbn [List.filter]; [reflexivity |].
  rewrite (Hl x) by (by left). f_equal. apply IH. intros y Hy. apply Hl. by right.
Qed.

Lemma find_snoc_fresh {A} (p : A -> bool) (l : list A) (a : A) :
  (forall x, In x l -> p x = false) -> p a = true ->
  List.find p (l ++ [a]) = Some a.
Proof.
  intros Hl Ha. induction l as [| x l IH]; cbn [List.find app].
  - by rewrite Ha.
  - rewrite (Hl x) by (by left). apply IH. intros y Hy. apply Hl. by right.
Qed.

(** X17. A load that succeeds, start to end. In a reachable state that is
    not disposed, [loadChunkAt] on a key that is neither loaded nor in
    flight sends one request; when the response is ok and the body has
    [CHUNK^3] bytes, the chunk is loaded from the body at its place, and the
    key is out of [inflight] again, its queue entry and its abort timer are
    gone and no attempt is left. *)
Theorem load_round_trip es s x z priority buf :
  run env init es = Some s -> disposed s = false ->
  map_has (Key.keyOf x z) (loaded s) = false ->
  Key.keyOf x z ∉ inflight s ->
  buf <> [] ->
  Z.of_nat (length buf) = CHUNK env * CHUNK env * CHUNK env ->
  let key := Key.keyOf x z in
  let rid := next_id s in
  let g := {| g_id := rid + 2; g_grid := buf; g_helper := Remote;
              g_position := (x * CHUNK env, 0, z * CHUNK env) |} in
  exists s',
    run env (loadChunkAt x z priority s) [EResponse rid true; EBody rid buf] = Some s' /\
    loaded s' = map_set key g (loaded s) /\
    worldGroup s' = worldGroup s ++ [g] /\
    inflight s' = inflight s /\
    chunkLoadQueue s' = chunkLoadQueue s /\
    timers s' = timers s /\
    requests s' = requests s /\
    effects s' = effects s ++ [Fetch key x z 0; Build key Remote buf].
Proof.
  intros Hr Hd Hl Hk Hbuf Hlen key rid g. subst key.
  destruct (reachable_consistent env es s Hr)
    as ((Ht & Hq & _) & _ & (Hdom & _) & _).
  assert (Hqueue : chunkLoadQueue s !! Key.keyOf x z = None).
  { apply not_elem_of_dom. by rewrite Hdom. }
  assert (Hreqs : forall r, In r (requests s) ->
            negb (r_id r =? rid)%nat = true).
  { intros r Hin. specialize (Hq r Hin). apply negb_true_iff, Nat.eqb_neq.
    unfold rid. lia. }
  assert (Htim : forall t, In t (timers s) ->
            negb (t_id t =? S rid)%nat = true).
  { intros t Hin. specialize (Ht t Hin). apply negb_true_iff, Nat.eqb_neq.
    unfold rid. lia. }
  assert (Hz : (Z.of_nat (length buf) =? 0) = false).
  { apply Z.eqb_neq. destruct buf; [done | cbn [length]; lia]. }
  assert (Hsz : (Z.of_nat (length buf) =? CHUNK env * CHUNK env * CHUNK env) = true)
    by (by apply Z.eqb_eq).
  assert (Hr0 : forall r0 : Request, r_id r0 = rid ->
            List.filter (fun r => negb (r_id r =? rid)%nat) (requests s ++ [r0]) =
            requests s).
  { intros r0 E. apply filter_snoc_fresh; [exact Hreqs |].
    by rewrite E, Nat.eqb_refl. }
  assert (Hf0 : forall r0 : Request, r_id r0 = rid ->
            List.find (fun r => (r_id r =? rid)%nat) (requests s ++ [r0]) = Some r0).
  { intros r0 E. apply find_snoc_fresh; [| by rewrite E, Nat.eqb_refl].
    intros r Hin. by apply negb_true_iff, Hreqs. }
  assert (Ht0 : forall t0 : Timer, t_id t0 = S rid ->
            List.filter (fun t => negb (t_id t =? S rid)%nat) (timers s ++ [t0]) =
            timers s).
  { intros t0 E. apply filter_snoc_fresh; [exact Htim |].
    by rewrite E, Nat.eqb_refl. }
  unfold loadChunkAt. rewrite Hl, Hd, bool_decide_eq_false_2 by exact Hk.
  cbn [orb]. cbn zeta. unfold attemptLoad. fields. rewrite Hd. cbn zeta. fold rid.
  cbn [run step]. unfold find_request at 1. fields.
  rewrite Hf0 by reflexivity.
  cbn [r_phase]. unfold resume_fetch. cbn [negb r_timeoutId]. cbn zeta.
  unfold find_request at 1. fields.
  rewrite Hr0 by reflexivity. rewrite Hf0 by reflexivity.
  cbn [r_phase]. unfold resume_body. cbn [r_key r_cx r_cz r_id]. cbn zeta.
  change (disposed (drop_request rid _)) with (disposed s).
  rewrite Hz, Hsz, Hd. cbn [negb]. unfold publish.
  eexists. split; [reflexivity |]. fields.
  rewrite !Hr0 by reflexivity. rewrite Ht0 by reflexivity.
  replace (S (S rid)) with (rid + 2)%nat by lia. fold g.
  repeat split.
  - apply set_eq. intros k.
    rewrite elem_of_difference, elem_of_union, !elem_of_singleton.
    split; [tauto |]. intros Hin. split; [by right |]. by intros ->.
  - by apply delete_insert_id.
  - by rewrite <- app_assoc.
Qed.
End RoundTrip.

Lemma load_round_trip_witness :
  let s := state_after first_failure in
  let g := {| g_id := next_id s + 2; g_grid := demo_grid; g_helper := Remote;
              g_position := (3 * CHUNK demo_env, 0, -2 * CHUNK demo_env) |} in
  exists s',
    run demo_env (loadChunkAt 3 (-2) {| dist2 := 13 |} s)
      [EResponse (next_id s) true; EBody (next_id s) demo_grid] = Some s' /\
    loaded s' = map_set (Key.keyOf 3 (-2)) g (loaded s) /\
    worldGroup s' = worldGroup s ++ [g] /\
    inflight s' = inflight s /\
    chunkLoadQueue s' = chunkLoadQueue s /\
    timers s' = timers s /\
    requests s' = requests s /\
    effects s' = effects s ++ [Fetch (Key.keyOf 3 (-2)) 3 (-2) 0;
                               Build (Key.keyOf 3 (-2)) Remote demo_grid].
Proof.
  apply (load_round_trip demo_env first_failure (state_after first_failure)
           3 (-2) {| dist2 := 13 |} demo_grid).
  - vm_compute. reflexivity.
  - vm_compute. reflexivity.
  - vm_compute. reflexivity.
  - refine (bool_decide_unpack _ _). vm_compute. exact Logic.I.
  - discriminate.
  - reflexivity.
Defined.

(** ** The frame loop *)

Section FrameLoopFacts.
Context {Pos : Type}.
Variable far : Pos -> Pos -> bool.
Variable chunk_of : Pos -> Z * Z.

(** X18. The window around the camera is scheduled twice when the component
    mounts: by the initial call of [ensureChunksAround] and, since
    [lastChunkX] and [lastChunkZ] start as [NaN], by the first frame. When
    the camera is then in the chunk of its initial position, each of the 169
    load timers is set a second time, with the same due time. *)
Theorem first_frame_schedules_again c0x c0z pos :
  chunk_of pos = (c0x, c0z) ->
  let v := updateLoop far chunk_of pos (mount c0x c0z) in
  lastChunk v = Some (c0x, c0z) /\
  core v = ensureChunksAround c0x c0z (ensureChunksAround c0x c0z init) /\
  exists batch1 batch2,
    timers (core v) = batch1 ++ batch2 /\
    length batch1 = 169%nat /\
    (forall t, In t batch1 -> exists x z p, t_cb t = CbLoad x z p) /\
    map timer_job batch2 = map timer_job batch1.
Proof.
  intros Hc. unfold updateLoop, mount. cbn [lastCamPos lastChunk core].
  rewrite Hc. cbn [lastChunk core]. split; [reflexivity |]. split; [reflexivity |].
  destruct (ensureChunksAround_again c0x c0z init) as [H1 H2]. cbn zeta in *.
  assert (Hrm : prune_timers c0x c0z init = []) by reflexivity.
  rewrite Hrm, (app_nil_r (load_timers c0x c0z init)) in H1, H2.
  change (timers init) with (@nil Timer) in H1. rewrite app_nil_l in H1.
  exists (load_timers c0x c0z init),
         (load_timers c0x c0z (ensureChunksAround c0x c0z init)
          ++ prune_timers c0x c0z (ensureChunksAround c0x c0z init)).
  split; [exact H1 |]. split; [| split; [| exact H2]].
  - unfold load_timers. rewrite length_imap.
    by apply chunksToLoad_length_empty.
  - unfold load_timers. intros t Hin.
    apply list_elem_of_In, list_elem_of_lookup in Hin as [i Hi].
    rewrite list_lookup_imap in Hi.
    destruct (chunksToLoad c0x c0z init !! i) as [c |]; [| discriminate].
    injection Hi as <-. cbn [t_cb]. eauto.
Qed.

End FrameLoopFacts.

Lemma first_frame_schedules_again_witness :
  let v := updateLoop (fun _ _ : Z * Z => false) (fun p => p) (3, -4) (mount 3 (-4)) in
  lastChunk v = Some (3, -4) /\
  core v = ensureChunksAround 3 (-4) (ensureChunksAround 3 (-4) init) /\
  exists batch1 batch2,
    timers (core v) = batch1 ++ batch2 /\
    length batch1 = 169%nat /\
    (forall t, In t batch1 -> exists x z p, t_cb t = CbLoad x z p) /\
    map timer_job batch2 = map timer_job batch1.
Proof.
  apply (first_frame_schedules_again (fun _ _ : Z * Z => false) (fun p => p)
           3 (-4) (3, -4)).
  reflexivity.
Defined.
